(** * aesext: block cipher wrapper with PKCS padding (block.go)

    A shallow embedding of [block.go]: the two free padding functions
    [PCKSPadding] and [PCKSUnPadding], the constructor [NewBlockCrypt],
    and the methods [Encrypt] and [Decrypt] of [blockBlock].

    Conventions.
    - [[]byte] is [list byte] (the standard library's 8-bit [Byte.byte]).
    - Go's [int] is a 64-bit two's complement integer, carried as [Z] with
      the wrap-around of each arithmetic operation written out.
    - A Go run-time panic is the [Panic] outcome.
    - Memory: [bytes_Repeat] and [PCKSPadding] take memory as unbounded;
      [bytes_Repeat_alloc] and [PCKSPadding_alloc] add the panics of the
      runtime's allocation limit.  The two agree within the limit.
    - A Go result pair [(value, error)] is a pair of options, [None]
      standing for [nil]. *)

From Stdlib Require Import String.
From Stdlib Require Import ZArith NArith List Bool Lia.
From Stdlib Require Import Strings.Byte.
Import ListNotations.
Local Open Scope Z_scope.

(** ** Machine integers and bytes *)

Module GoInt.

Definition max_int : Z := 2 ^ 63 - 1.
Definition min_int : Z := - 2 ^ 63.

(** Two's complement wrap-around of a 64-bit signed result. *)
Definition wrap (z : Z) : Z := (z + 2 ^ 63) mod 2 ^ 64 - 2 ^ 63.

Definition sub (x y : Z) : Z := wrap (x - y).

(** [byte(z)]: conversion of an [int] to [byte] keeps the low 8 bits. *)
Definition to_byte (z : Z) : byte :=
  match Byte.of_N (Z.to_N (z mod 256)) with
  | Some b => b
  | None => x00
  end.

(** [int(b)]: a byte read as a non-negative [int]. *)
Definition of_byte (b : byte) : Z := Z.of_N (Byte.to_N b).

(** [len(s)] as an [int]. *)
Definition len {A} (s : list A) : Z := Z.of_nat (length s).

End GoInt.

(** ** Outcomes of a Go call *)

Inductive panic : Type :=
| DivideByZero          (* integer divide by zero *)
| NegativeRepeatCount   (* bytes: negative Repeat count *)
| RepeatOverflow        (* bytes: Repeat output length overflow *)
| NilDereference        (* invalid memory address or nil pointer dereference *)
| IVLengthMismatch      (* cipher.NewCBC...: IV length must equal block size *)
| InputNotFullBlocks    (* crypto/cipher: input not full blocks *)
| ForeignPanic (msg : string).

Inductive outcome (A : Type) : Type :=
| Val (a : A)
| Panic (p : panic).
Arguments Val {A} a.
Arguments Panic {A} p.

(** The package's error values; [ErrForeign] stands for any error made
    outside this package (by a cipher constructor). *)
Inductive error : Type :=
| ErrInputNotMultipleBlocks
| ErrInvalidIvSize
| ErrUnPaddingOutOfRange
| ErrForeign (msg : string).

(** [x % y] on [int]: truncated remainder, panics on a zero divisor. *)
Definition int_rem (x y : Z) : outcome Z :=
  if y =? 0 then Panic DivideByZero else Val (Z.rem x y).

(** [bytes.Repeat(b, count)] of the Go standard library, with memory
    taken as unbounded: the allocation of the result never fails
    ([bytes_Repeat_alloc] below adds the runtime's limit). *)
Definition bytes_Repeat (b : list byte) (count : Z) : outcome (list byte) :=
  if count =? 0 then Val []
  else if count <? 0 then Panic NegativeRepeatCount
  else if GoInt.len b * count >? GoInt.max_int then Panic RepeatOverflow
  else Val (concat (repeat b (Z.to_nat count))).

(** ** Padding *)

(** [PCKSPadding(origData, blockSize)]. *)
Definition PCKSPadding (origData : list byte) (blockSize : Z)
  : outcome (list byte) :=
  match int_rem (GoInt.len origData) blockSize with
  | Panic p => Panic p
  | Val r =>
      let padSize := GoInt.sub blockSize r in
      match bytes_Repeat [GoInt.to_byte padSize] padSize with
      | Panic p => Panic p
      | Val padText => Val (origData ++ padText)
      end
  end.

(** [PCKSUnPadding(origData)]. *)
Definition PCKSUnPadding (origData : list byte)
  : option (list byte) * option error :=
  let length := GoInt.len origData in
  if length =? 0 then (None, Some ErrUnPaddingOutOfRange)
  else
    let unPadSize := GoInt.of_byte (last origData x00) in
    if unPadSize >? length then (None, Some ErrUnPaddingOutOfRange)
    else (Some (firstn (Z.to_nat (length - unPadSize)) origData), None).

(** The number of padding bytes as the specification writes it,
    [B - (L mod B)]. *)
Definition pad_size (blockSize L : Z) : Z := blockSize - L mod blockSize.

(** "[PCKSPadding data B] appends a full extra block: exactly [B] bytes,
    each with byte value [B]", as a predicate on the function's result. *)
Definition appends_full_block (data : list byte) (B : Z) : Prop :=
  exists padText,
    PCKSPadding data B = Val (data ++ padText)
    /\ GoInt.len padText = B
    /\ Forall (fun b => GoInt.of_byte b = B) padText.

(** ** The host library's interfaces: crypto/cipher and crypto/subtle

    [cipher.Block], [cipher.BlockMode] and the CBC constructors are not
    part of this package; they are the Go standard library's.  A block
    cipher is taken as a record of its three methods, its single-block
    transforms as functions on a block's bytes. *)

Module cipher.

Record Block : Type := mkBlock {
  BlockSize : Z;
  Encrypt : list byte -> list byte;
  Decrypt : list byte -> list byte
}.

(** [CryptBlocks(dst, src)]: the bytes the mode writes to [dst] for the
    source bytes [src], or the panic it raises. *)
Record BlockMode : Type := mkBlockMode {
  ModeBlockSize : Z;
  CryptBlocks : list byte -> outcome (list byte)
}.

Definition xor_byte (a b : byte) : byte :=
  GoInt.to_byte (Z.lxor (GoInt.of_byte a) (GoInt.of_byte b)).

(** [subtle.XORBytes(dst, x, y)]: xors the first [min(len(x), len(y))]
    bytes. *)
Fixpoint XORBytes (x y : list byte) : list byte :=
  match x, y with
  | a :: x', b :: y' => xor_byte a b :: XORBytes x' y'
  | _, _ => []
  end.

(** The loop of [cbcEncrypter.CryptBlocks]: [for len(src) > 0], each
    round xors one source block with the running [iv], encrypts it, and
    takes the ciphertext block as the next [iv]. *)
Fixpoint cbc_encrypt_loop (b : Block) (fuel : nat) (iv src : list byte)
  : list byte :=
  match fuel with
  | O => []
  | S fuel' =>
      if GoInt.len src >? 0 then
        let bs := Z.to_nat (BlockSize b) in
        let c := Encrypt b (XORBytes (firstn bs src) iv) in
        c ++ cbc_encrypt_loop b fuel' c (skipn bs src)
      else []
  end.

(** The blocks of [cbcDecrypter.CryptBlocks].  Go walks them from the
    last to the first so that it can work in place; block [i] of the
    result is the decryption of source block [i] xored with source block
    [i-1], the saved [iv] for the first one. *)
Fixpoint cbc_decrypt_loop (b : Block) (fuel : nat) (iv src : list byte)
  : list byte :=
  match fuel with
  | O => []
  | S fuel' =>
      if GoInt.len src >? 0 then
        let bs := Z.to_nat (BlockSize b) in
        let c := firstn bs src in
        XORBytes (Decrypt b c) iv ++ cbc_decrypt_loop b fuel' c (skipn bs src)
      else []
  end.

Definition cbc_CryptBlocks
    (loop : Block -> nat -> list byte -> list byte -> list byte)
    (b : Block) (iv src : list byte) : outcome (list byte) :=
  match int_rem (GoInt.len src) (BlockSize b) with
  | Panic p => Panic p
  | Val r =>
      if negb (r =? 0) then Panic InputNotFullBlocks
      else Val (loop b (length src) iv src)
  end.

(** [cipher.NewCBCEncrypter(b, iv)]. *)
Definition NewCBCEncrypter (b : Block) (iv : list byte) : outcome BlockMode :=
  if negb (GoInt.len iv =? BlockSize b) then Panic IVLengthMismatch
  else Val {| ModeBlockSize := BlockSize b;
              CryptBlocks := cbc_CryptBlocks cbc_encrypt_loop b iv |}.

(** [cipher.NewCBCDecrypter(b, iv)]. *)
Definition NewCBCDecrypter (b : Block) (iv : list byte) : outcome BlockMode :=
  if negb (GoInt.len iv =? BlockSize b) then Panic IVLengthMismatch
  else Val {| ModeBlockSize := BlockSize b;
              CryptBlocks := cbc_CryptBlocks cbc_decrypt_loop b iv |}.

(** What the package expects of a cipher primitive: a positive block
    size, and single-block transforms that keep the block's length and
    undo each other. *)
Record block_wf (b : Block) : Prop := {
  wf_size : 1 <= BlockSize b <= GoInt.max_int;
  wf_encrypt_len :
    forall x, GoInt.len x = BlockSize b ->
              GoInt.len (Encrypt b x) = BlockSize b;
  wf_decrypt_encrypt :
    forall x, GoInt.len x = BlockSize b -> Decrypt b (Encrypt b x) = x
}.

End cipher.

(** ** Calls with a record of the host calls made

    [Encrypt] and [Decrypt] call the configured factory and the
    transform it returns.  A run yields the calls made, in order, and
    the outcome. *)

Inductive event : Type :=
| CallNewEncrypt (iv : list byte)
| CallNewDecrypt (iv : list byte)
| CallCryptBlocks (src : list byte).

Definition M (A : Type) : Type := (list event * outcome A)%type.

Definition ret {A} (a : A) : M A := ([], Val a).

Definition bind {A B} (m : M A) (f : A -> M B) : M B :=
  match m with
  | (t, Val a) => let (t', r) := f a in (t ++ t', r)
  | (t, Panic p) => (t, Panic p)
  end.

Definition emit (e : event) : M unit := ([e], Val tt).

Definition lift {A} (o : outcome A) : M A := ([], o).

Notation "x <- m ;; k" := (bind m (fun x => k))
  (at level 61, m at next level, right associativity).
Notation "m ;;; k" := (bind m (fun _ => k))
  (at level 61, right associativity).

Definition trace {A} (m : M A) : list event := fst m.
Definition result {A} (m : M A) : outcome A := snd m.

(** A transform called as [CryptBlocks(buf, buf)] writes into the
    caller's buffer: it replaces bytes of [buf] and cannot change its
    length. *)
Definition overwrite (buf out : list byte) : list byte :=
  firstn (length buf) (out ++ skipn (length out) buf).

Definition CryptBlocks_in_place (mode : cipher.BlockMode) (buf : list byte)
  : M (list byte) :=
  emit (CallCryptBlocks buf) ;;;
  out <- lift (cipher.CryptBlocks mode buf) ;;
  ret (overwrite buf out).

(** ** The wrapper *)

Definition factory : Type :=
  cipher.Block -> list byte -> outcome cipher.BlockMode.

Record blockBlock : Type := mkBlockBlock {
  block : cipher.Block;
  iv : list byte;
  newEncrypt : factory;
  newDecrypt : factory
}.

(** [type Option func(bs *blockBlock)]: an option updates the wrapper
    under construction. *)
Definition Option : Type := blockBlock -> blockBlock.

Definition WithBlockCodec (newEncrypt' newDecrypt' : factory) : Option :=
  fun bs => {| block := block bs; iv := iv bs;
               newEncrypt := newEncrypt'; newDecrypt := newDecrypt' |}.

(** [newCipher(key)] returns a Go pair [(cipher.Block, error)]. *)
Definition cipher_constructor : Type :=
  list byte -> outcome (option cipher.Block * option error).

Definition NewBlockCrypt (key iv0 : list byte) (newCipher : cipher_constructor)
    (opts : list Option) : outcome (option blockBlock * option error) :=
  match newCipher key with
  | Panic p => Panic p
  | Val (_, Some err) => Val (None, Some err)
  | Val (None, None) => Panic NilDereference
  | Val (Some blk, None) =>
      if negb (GoInt.len iv0 =? cipher.BlockSize blk)
      then Val (None, Some ErrInvalidIvSize)
      else
        let bb := {| block := blk; iv := iv0;
                     newEncrypt := cipher.NewCBCEncrypter;
                     newDecrypt := cipher.NewCBCDecrypter |} in
        Val (Some (fold_left (fun bb opt => opt bb) opts bb), None)
  end.

Definition BlockSize (sf : blockBlock) : Z := cipher.BlockSize (block sf).

Definition Encrypt (sf : blockBlock) (plainText : list byte)
  : M (option (list byte) * option error) :=
  orig <- lift (PCKSPadding plainText (cipher.BlockSize (block sf))) ;;
  emit (CallNewEncrypt (iv sf)) ;;;
  mode <- lift (newEncrypt sf (block sf) (iv sf)) ;;
  orig' <- CryptBlocks_in_place mode orig ;;
  ret (Some orig', None).

Definition Decrypt (sf : blockBlock) (cipherText : list byte)
  : M (option (list byte) * option error) :=
  let blockSize := cipher.BlockSize (block sf) in
  if GoInt.len cipherText =? 0 then ret (None, Some ErrInputNotMultipleBlocks)
  else
    r <- lift (int_rem (GoInt.len cipherText) blockSize) ;;
    if negb (r =? 0) then ret (None, Some ErrInputNotMultipleBlocks)
    else
      emit (CallNewDecrypt (iv sf)) ;;;
      mode <- lift (newDecrypt sf (block sf) (iv sf)) ;;
      buf <- CryptBlocks_in_place mode cipherText ;;
      ret (PCKSUnPadding buf).

(** "The chaining transform is assumed correct on valid-length input":
    the configured encrypting factory yields a transform, and that
    transform returns on every buffer of whole blocks. *)
Definition encrypt_transform_defined (sf : blockBlock) : Prop :=
  exists mode,
    newEncrypt sf (block sf) (iv sf) = Val mode
    /\ forall buf, (BlockSize sf | GoInt.len buf) ->
                   exists out, cipher.CryptBlocks mode buf = Val out.

(** ** A small cipher to run the definitions on

    Xor with the key, one block being as long as the key. *)
Definition xorCipher : cipher_constructor :=
  fun key =>
    Val (Some {| cipher.BlockSize := GoInt.len key;
                 cipher.Encrypt := fun x => cipher.XORBytes x key;
                 cipher.Decrypt := fun x => cipher.XORBytes x key |}, None).

(** A constructor that refuses every key. *)
Definition failingCipher (e : error) : cipher_constructor :=
  fun _ => Val (None, Some e).

Definition key4 : list byte := [x13; x57; x9b; xdf].
Definition iv4 : list byte := [xa0; xb1; xc2; xd3].

Definition xorBlock4 : cipher.Block :=
  {| cipher.BlockSize := GoInt.len key4;
     cipher.Encrypt := fun x => cipher.XORBytes x key4;
     cipher.Decrypt := fun x => cipher.XORBytes x key4 |}.

Definition bb4 : blockBlock :=
  {| block := xorBlock4; iv := iv4;
     newEncrypt := cipher.NewCBCEncrypter;
     newDecrypt := cipher.NewCBCDecrypter |}.

(** ** Further notions used to state properties of the wrapper *)

(** The options that [WithBlockCodec] makes from a list of factory
    pairs. *)
Definition codec_options (codecs : list (factory * factory)) : list Option :=
  map (fun c => WithBlockCodec (fst c) (snd c)) codecs.

(** The configured factories yield transforms, and on every buffer of
    whole blocks the encrypting transform keeps the length and the
    decrypting transform gives the buffer back. *)
Definition decrypt_inverts_encrypt (sf : blockBlock) : Prop :=
  exists enc dec,
    newEncrypt sf (block sf) (iv sf) = Val enc
    /\ newDecrypt sf (block sf) (iv sf) = Val dec
    /\ forall buf, (BlockSize sf | GoInt.len buf) ->
         exists out, cipher.CryptBlocks enc buf = Val out
                     /\ length out = length buf
                     /\ cipher.CryptBlocks dec out = Val buf.

(** [Decrypt] with the caller's buffer made explicit.  The slice
    [cipherText] is passed to [CryptBlocks] as destination and source,
    so the transform writes into the caller's memory; the first
    component is the content of that buffer when [Decrypt] returns, the
    second the returned pair. *)
Definition Decrypt_in_place (sf : blockBlock) (cipherText : list byte)
  : M (list byte * (option (list byte) * option error)) :=
  let blockSize := cipher.BlockSize (block sf) in
  if GoInt.len cipherText =? 0
  then ret (cipherText, (None, Some ErrInputNotMultipleBlocks))
  else
    r <- lift (int_rem (GoInt.len cipherText) blockSize) ;;
    if negb (r =? 0)
    then ret (cipherText, (None, Some ErrInputNotMultipleBlocks))
    else
      emit (CallNewDecrypt (iv sf)) ;;;
      mode <- lift (newDecrypt sf (block sf) (iv sf)) ;;
      buf <- CryptBlocks_in_place mode cipherText ;;
      ret (buf, PCKSUnPadding buf).

(** A chaining mode that leaves every buffer as it is, to run the
    wrapper with configured factories. *)
Definition plainCodec : factory :=
  fun b _ => Val {| cipher.ModeBlockSize := cipher.BlockSize b;
                    cipher.CryptBlocks := fun src => Val src |}.

Definition bb4plain : blockBlock :=
  {| block := xorBlock4; iv := iv4;
     newEncrypt := plainCodec; newDecrypt := plainCodec |}.

(** ** Padding under the runtime's allocation limit

    [bytes_Repeat] and [PCKSPadding] above take memory as unbounded.
    The Go runtime refuses an allocation of more than [maxAlloc] bytes
    with a panic: [makeslice: len out of range] when a slice is made,
    [growslice: len out of range] when [append] has to grow one.  The
    definitions below are [bytes.Repeat], [append] and [PCKSPadding]
    with these two panics.  Within the limit memory is taken to be
    there: a machine that runs out of it is outside the model. *)

(** The runtime's [maxAlloc] where [int] has 64 bits and heap addresses
    have 48. *)
Definition maxAlloc : Z := 2 ^ 48.

Definition makeslicePanic : panic :=
  ForeignPanic "runtime error: makeslice: len out of range".

Definition growslicePanic : panic :=
  ForeignPanic "growslice: len out of range".

(** [bytes.Repeat(b, count)], allocating its result. *)
Definition bytes_Repeat_alloc (b : list byte) (count : Z)
  : outcome (list byte) :=
  if count =? 0 then Val []
  else if count <? 0 then Panic NegativeRepeatCount
  else if GoInt.len b * count >? GoInt.max_int then Panic RepeatOverflow
  else if GoInt.len b * count >? maxAlloc then Panic makeslicePanic
  else Val (concat (repeat b (Z.to_nat count))).

(** [append(s, t...)]: a result longer than [maxAlloc] cannot be held by
    the slice it is appended to, nor by a grown one. *)
Definition append_alloc (s t : list byte) : outcome (list byte) :=
  if GoInt.len s + GoInt.len t >? maxAlloc then Panic growslicePanic
  else Val (s ++ t).

(** [PCKSPadding(origData, blockSize)] with the allocations of
    [bytes.Repeat] and [append]. *)
Definition PCKSPadding_alloc (origData : list byte) (blockSize : Z)
  : outcome (list byte) :=
  match int_rem (GoInt.len origData) blockSize with
  | Panic p => Panic p
  | Val r =>
      let padSize := GoInt.sub blockSize r in
      match bytes_Repeat_alloc [GoInt.to_byte padSize] padSize with
      | Panic p => Panic p
      | Val padText => append_alloc origData padText
      end
  end.

(** * Running the definitions *)

Example pad_hello :
  PCKSPadding [x68; x65; x6c; x6c; x6f] 16
  = Val ([x68; x65; x6c; x6c; x6f] ++ repeat x0b 11).
Proof. reflexivity. Qed.

Example pad_alloc_hello :
  PCKSPadding_alloc [x68; x65; x6c; x6c; x6f] 16
  = Val ([x68; x65; x6c; x6c; x6f] ++ repeat x0b 11).
Proof. reflexivity. Qed.

Example unpad_hello :
  PCKSUnPadding ([x68; x65; x6c; x6c; x6f] ++ repeat x0b 11)
  = (Some [x68; x65; x6c; x6c; x6f], None).
Proof. reflexivity. Qed.

Example new_bb4 : NewBlockCrypt key4 iv4 xorCipher [] = Val (Some bb4, None).
Proof. reflexivity. Qed.

Example new_with_codec (e d : factory) :
  NewBlockCrypt key4 iv4 xorCipher [WithBlockCodec e d]
  = Val (Some {| block := xorBlock4; iv := iv4;
                 newEncrypt := e; newDecrypt := d |}, None).
Proof. reflexivity. Qed.

Example encrypt_hello :
  Encrypt bb4 [x68; x65; x6c; x6c; x6f]
  = ([CallNewEncrypt iv4;
      CallCryptBlocks [x68; x65; x6c; x6c; x6f; x03; x03; x03]],
     Val (Some [xdb; x83; x35; x60; xa7; xd7; xad; xbc], None)).
Proof. vm_compute. reflexivity. Qed.

Example decrypt_hello :
  Decrypt bb4 [xdb; x83; x35; x60; xa7; xd7; xad; xbc]
  = ([CallNewDecrypt iv4;
      CallCryptBlocks [xdb; x83; x35; x60; xa7; xd7; xad; xbc]],
     Val (Some [x68; x65; x6c; x6c; x6f], None)).
Proof. vm_compute. reflexivity. Qed.

Example decrypt_out_of_range :
  result (Decrypt bb4 [x00; x00; x00; x00])
  = Val (None, Some ErrUnPaddingOutOfRange).
Proof. vm_compute. reflexivity. Qed.

(** * Properties *)

(** ** Integers and bytes *)

Section IntFacts.

Lemma wrap_in_range (z : Z) :
  GoInt.min_int <= z <= GoInt.max_int -> GoInt.wrap z = z.
Proof.
  unfold GoInt.wrap, GoInt.min_int, GoInt.max_int. intros Hz.
  rewrite Z.mod_small; lia.
Qed.

Lemma of_byte_range (b : byte) : 0 <= GoInt.of_byte b <= 255.
Proof.
  unfold GoInt.of_byte. pose proof (Byte.to_N_bounded b). lia.
Qed.

Lemma of_to_byte (z : Z) : GoInt.of_byte (GoInt.to_byte z) = z mod 256.
Proof.
  unfold GoInt.of_byte, GoInt.to_byte.
  pose proof (Z.mod_pos_bound z 256 ltac:(lia)) as Hm.
  destruct (Byte.of_N (Z.to_N (z mod 256))) as [b|] eqn:E.
  - apply Byte.to_of_N in E. rewrite E. lia.
  - apply Byte.of_N_None_iff in E. lia.
Qed.

Lemma to_of_byte (b : byte) : GoInt.to_byte (GoInt.of_byte b) = b.
Proof.
  unfold GoInt.to_byte. pose proof (of_byte_range b) as Hb.
  rewrite Z.mod_small by lia. unfold GoInt.of_byte.
  rewrite N2Z.id, Byte.of_to_N. reflexivity.
Qed.

Lemma of_byte_inj (a b : byte) : GoInt.of_byte a = GoInt.of_byte b -> a = b.
Proof.
  intros H. rewrite <- (to_of_byte a), <- (to_of_byte b), H. reflexivity.
Qed.

Lemma len_app {A} (l l' : list A) :
  GoInt.len (l ++ l') = GoInt.len l + GoInt.len l'.
Proof. unfold GoInt.len. rewrite length_app. lia. Qed.

Lemma len_nonneg {A} (l : list A) : 0 <= GoInt.len l.
Proof. unfold GoInt.len. lia. Qed.

Lemma len_repeat {A} (a : A) (n : nat) : GoInt.len (repeat a n) = Z.of_nat n.
Proof. unfold GoInt.len. rewrite repeat_length. reflexivity. Qed.

Lemma len_zero_nil {A} (l : list A) : GoInt.len l = 0 <-> l = [].
Proof.
  unfold GoInt.len. destruct l; simpl; split; intros H;
    try reflexivity; try discriminate; lia.
Qed.

Lemma concat_repeat_singleton {A} (a : A) (n : nat) :
  concat (repeat [a] n) = repeat a n.
Proof. induction n as [|n IH]; simpl; [reflexivity | now rewrite IH]. Qed.

Lemma firstn_exact {A} (l1 l2 : list A) (n : nat) :
  length l1 = n -> firstn n (l1 ++ l2) = l1.
Proof.
  intros <-. rewrite firstn_app, Nat.sub_diag, firstn_all. apply app_nil_r.
Qed.

Lemma skipn_exact {A} (l1 l2 : list A) (n : nat) :
  length l1 = n -> skipn n (l1 ++ l2) = l2.
Proof.
  intros <-. rewrite skipn_app, Nat.sub_diag, skipn_all. reflexivity.
Qed.

End IntFacts.

(** ** Padding *)

Section PaddingFacts.

Variable blockSize : Z.
Hypothesis blockSize_pos : 1 <= blockSize <= GoInt.max_int.

Lemma pad_size_range (L : Z) : 1 <= pad_size blockSize L <= blockSize.
Proof.
  unfold pad_size. pose proof (Z.mod_pos_bound L blockSize ltac:(lia)). lia.
Qed.

Lemma int_rem_len {A} (l : list A) :
  int_rem (GoInt.len l) blockSize = Val (GoInt.len l mod blockSize).
Proof.
  unfold int_rem. destruct (Z.eqb_spec blockSize 0) as [E|_]; [lia|].
  rewrite Z.rem_mod_nonneg; [reflexivity | apply len_nonneg | lia].
Qed.

Lemma bytes_Repeat_one (b : byte) (count : Z) :
  1 <= count <= GoInt.max_int ->
  bytes_Repeat [b] count = Val (repeat b (Z.to_nat count)).
Proof.
  intros Hc. unfold bytes_Repeat.
  destruct (Z.eqb_spec count 0) as [E|_]; [lia|].
  destruct (Z.ltb_spec count 0) as [E|_]; [lia|].
  change (GoInt.len [b]) with 1. rewrite Z.mul_1_l.
  destruct (Z.gtb_spec count GoInt.max_int) as [E|_]; [lia|].
  now rewrite concat_repeat_singleton.
Qed.

(** The closed form of [PCKSPadding] for a positive block size. *)
Lemma PCKSPadding_eq (origData : list byte) :
  let p := pad_size blockSize (GoInt.len origData) in
  PCKSPadding origData blockSize
  = Val (origData ++ repeat (GoInt.to_byte p) (Z.to_nat p)).
Proof.
  intros p. unfold PCKSPadding. rewrite int_rem_len.
  pose proof (pad_size_range (GoInt.len origData)) as Hp. fold p in Hp.
  unfold GoInt.sub. change (blockSize - _) with p.
  rewrite wrap_in_range by (unfold GoInt.min_int; lia).
  rewrite bytes_Repeat_one by lia. reflexivity.
Qed.

Lemma PCKSPadding_len (origData padded : list byte) :
  PCKSPadding origData blockSize = Val padded ->
  GoInt.len padded
  = GoInt.len origData + pad_size blockSize (GoInt.len origData).
Proof.
  rewrite PCKSPadding_eq. intros [= <-].
  pose proof (pad_size_range (GoInt.len origData)).
  rewrite len_app, len_repeat. lia.
Qed.

Lemma padded_len_multiple (L : Z) :
  0 <= L -> L + pad_size blockSize L = (L / blockSize + 1) * blockSize.
Proof.
  intros HL. unfold pad_size.
  pose proof (Z.div_mod L blockSize ltac:(lia)). lia.
Qed.

End PaddingFacts.

Section UnPaddingFacts.

Lemma last_app_repeat (l : list byte) (b d : byte) (n : nat) :
  (0 < n)%nat -> last (l ++ repeat b n) d = b.
Proof.
  intros Hn. destruct n as [|n]; [lia|].
  replace (S n) with (n + 1)%nat by lia.
  rewrite repeat_app, app_assoc. apply last_last.
Qed.

(** [PCKSUnPadding] by cases on the two tests it makes. *)
Lemma PCKSUnPadding_cases (origData : list byte) :
  let L := GoInt.len origData in
  let unPadSize := GoInt.of_byte (last origData x00) in
  (L = 0 \/ unPadSize > L) /\
    PCKSUnPadding origData = (None, Some ErrUnPaddingOutOfRange)
  \/
  (L <> 0 /\ unPadSize <= L) /\
    PCKSUnPadding origData
    = (Some (firstn (Z.to_nat (L - unPadSize)) origData), None).
Proof.
  intros L unPadSize. unfold PCKSUnPadding. fold L. fold unPadSize.
  destruct (Z.eqb_spec L 0) as [E|E]; [left; split; [lia | reflexivity]|].
  destruct (Z.gtb_spec unPadSize L) as [G|G];
    [left; split; [lia | reflexivity]|].
  right. split; [lia | reflexivity].
Qed.

(** Unpadding the closed form of a padded buffer, for a block size that
    fits a byte. *)
Lemma PCKSUnPadding_padded (X : list byte) (B : Z) :
  1 <= B <= 255 ->
  let p := pad_size B (GoInt.len X) in
  PCKSUnPadding (X ++ repeat (GoInt.to_byte p) (Z.to_nat p)) = (Some X, None).
Proof.
  intros HB p.
  assert (Hp : 1 <= p <= B).
  { apply pad_size_range. unfold GoInt.max_int. lia. }
  pose proof (len_nonneg X) as HX.
  assert (Hlast : GoInt.of_byte
                    (last (X ++ repeat (GoInt.to_byte p) (Z.to_nat p)) x00)
                  = p).
  { rewrite last_app_repeat by lia. rewrite of_to_byte.
    apply Z.mod_small. lia. }
  destruct (PCKSUnPadding_cases (X ++ repeat (GoInt.to_byte p) (Z.to_nat p)))
    as [[Hc ->]|[_ ->]].
  - rewrite Hlast, len_app, len_repeat in Hc. lia.
  - rewrite Hlast, len_app, len_repeat.
    replace (GoInt.len X + Z.of_nat (Z.to_nat p) - p) with (GoInt.len X)
      by lia.
    unfold GoInt.len. rewrite Nat2Z.id, firstn_exact; reflexivity.
Qed.

End UnPaddingFacts.

(** ** Padding under the allocation limit *)

Section AllocFacts.

Lemma wrap_below (z : Z) :
  - 2 ^ 64 < z < GoInt.min_int -> GoInt.wrap z = z + 2 ^ 64.
Proof.
  unfold GoInt.wrap, GoInt.min_int. intros Hz.
  rewrite <- (Z.mod_add (z + 2 ^ 63) 1 (2 ^ 64)) by lia.
  rewrite Z.mod_small; lia.
Qed.

Lemma bytes_Repeat_alloc_one (b : byte) (count : Z) :
  1 <= count <= GoInt.max_int ->
  bytes_Repeat_alloc [b] count
  = if count >? maxAlloc then Panic makeslicePanic
    else Val (repeat b (Z.to_nat count)).
Proof.
  intros Hc. unfold bytes_Repeat_alloc.
  destruct (Z.eqb_spec count 0) as [E|_]; [lia|].
  destruct (Z.ltb_spec count 0) as [E|_]; [lia|].
  change (GoInt.len [b]) with 1. rewrite Z.mul_1_l.
  destruct (Z.gtb_spec count GoInt.max_int) as [E|_]; [lia|].
  now rewrite concat_repeat_singleton.
Qed.

(** Within the limit [PCKSPadding_alloc] is [PCKSPadding]. *)
Lemma PCKSPadding_alloc_within (origData : list byte) (B : Z) :
  1 <= B <= GoInt.max_int ->
  GoInt.len origData + pad_size B (GoInt.len origData) <= maxAlloc ->
  PCKSPadding_alloc origData B = PCKSPadding origData B.
Proof.
  intros HB Hfit. rewrite (PCKSPadding_eq B HB origData).
  pose proof (pad_size_range B HB (GoInt.len origData)) as Hp.
  pose proof (len_nonneg origData) as HL.
  set (p := pad_size B (GoInt.len origData)) in *.
  unfold PCKSPadding_alloc. rewrite (int_rem_len B HB).
  unfold GoInt.sub. change (B - _) with p.
  rewrite wrap_in_range by (unfold GoInt.min_int; lia).
  rewrite bytes_Repeat_alloc_one by lia.
  destruct (Z.gtb_spec p maxAlloc) as [G|_]; [lia|].
  unfold append_alloc. rewrite len_repeat, Z2Nat.id by lia.
  destruct (Z.gtb_spec (GoInt.len origData + p) maxAlloc) as [G|_]; [lia|].
  reflexivity.
Qed.

(** Above the limit it panics, in [bytes.Repeat] or in [append]. *)
Lemma PCKSPadding_alloc_above (origData : list byte) (B : Z) :
  1 <= B <= GoInt.max_int ->
  maxAlloc < GoInt.len origData + pad_size B (GoInt.len origData) ->
  exists p, PCKSPadding_alloc origData B = Panic p.
Proof.
  intros HB Hover.
  pose proof (pad_size_range B HB (GoInt.len origData)) as Hp.
  set (p := pad_size B (GoInt.len origData)) in *.
  unfold PCKSPadding_alloc. rewrite (int_rem_len B HB).
  unfold GoInt.sub. change (B - _) with p.
  rewrite wrap_in_range by (unfold GoInt.min_int; lia).
  rewrite bytes_Repeat_alloc_one by lia.
  destruct (Z.gtb_spec p maxAlloc) as [_|_]; [eexists; reflexivity|].
  unfold append_alloc. rewrite len_repeat, Z2Nat.id by lia.
  destruct (Z.gtb_spec (GoInt.len origData + p) maxAlloc) as [_|G];
    [eexists; reflexivity | lia].
Qed.

(** A block size of 0 or below makes it panic, whatever the data. *)
Lemma PCKSPadding_alloc_nonpositive (origData : list byte) (B : Z) :
  GoInt.min_int <= B <= 0 ->
  exists p, PCKSPadding_alloc origData B = Panic p.
Proof.
  intros HB. unfold PCKSPadding_alloc, int_rem.
  destruct (Z.eqb_spec B 0) as [E|E]; [eexists; reflexivity|].
  pose proof (len_nonneg origData) as HL.
  assert (Hr : 0 <= Z.rem (GoInt.len origData) B < - B).
  { rewrite <- Z.rem_opp_r by lia. apply Z.rem_bound_pos; lia. }
  assert (Hrl : Z.rem (GoInt.len origData) B <= GoInt.len origData).
  { rewrite <- Z.rem_opp_r by lia.
    destruct (Z.lt_ge_cases (GoInt.len origData) (- B)) as [Hlt|Hge].
    - rewrite Z.rem_small; lia.
    - pose proof (Z.rem_bound_pos (GoInt.len origData) (- B)). lia. }
  set (r := Z.rem (GoInt.len origData) B) in *.
  unfold GoInt.sub, GoInt.min_int in *.
  destruct (Z.lt_ge_cases (B - r) (- 2 ^ 63)) as [Hlow|Hin].
  - rewrite wrap_below by (unfold GoInt.min_int; lia).
    set (w := B - r + 2 ^ 64).
    assert (Hw : 1 <= w <= GoInt.max_int)
      by (unfold w, GoInt.max_int; lia).
    rewrite bytes_Repeat_alloc_one by exact Hw.
    destruct (Z.gtb_spec w maxAlloc) as [_|Hfit]; [eexists; reflexivity|].
    unfold append_alloc. rewrite len_repeat, Z2Nat.id by lia.
    destruct (Z.gtb_spec (GoInt.len origData + w) maxAlloc) as [_|G];
      [eexists; reflexivity|].
    unfold w, maxAlloc in *. lia.
  - rewrite wrap_in_range by (unfold GoInt.min_int, GoInt.max_int; lia).
    unfold bytes_Repeat_alloc.
    destruct (Z.eqb_spec (B - r) 0) as [E0|_]; [lia|].
    destruct (Z.ltb_spec (B - r) 0) as [_|G]; [eexists; reflexivity|lia].
Qed.

End AllocFacts.

(** ** The padding functions: the specification's statements *)

(** C2. [PCKSUnPadding] fails with [ErrUnPaddingOutOfRange] exactly when
    the input is empty or its last byte, read as a count, exceeds the
    input's length; otherwise it returns the input without its last
    [padSize] bytes.  The bytes in front of the last one are not looked
    at: whatever [padSize - 1] bytes precede the count byte, they are
    dropped with it. *)
Theorem PCKSUnPadding_range_check :
  (forall data : list byte,
      let L := GoInt.len data in
      let padSize := GoInt.of_byte (last data x00) in
      (PCKSUnPadding data = (None, Some ErrUnPaddingOutOfRange)
       <-> L = 0 \/ padSize > L)
      /\ (~ (L = 0 \/ padSize > L) ->
          PCKSUnPadding data
          = (Some (firstn (Z.to_nat (L - padSize)) data), None)))
  /\ (forall (front trailing : list byte) (count : byte),
         GoInt.of_byte count = GoInt.len trailing + 1 ->
         PCKSUnPadding (front ++ trailing ++ [count]) = (Some front, None)).
Proof.
  split.
  - intros data L padSize.
    destruct (PCKSUnPadding_cases data) as [[Hc ->]|[Hc ->]];
      fold L in Hc; fold padSize in Hc.
    + split; [tauto | intros Hn; tauto].
    + split; [split; [discriminate | lia] | reflexivity].
  - intros front trailing count Hcount.
    destruct (PCKSUnPadding_cases (front ++ trailing ++ [count]))
      as [[Hc ->]|[_ ->]].
    + rewrite app_assoc, last_last, <- app_assoc in Hc.
      rewrite !len_app in Hc. change (GoInt.len [count]) with 1 in Hc.
      pose proof (len_nonneg front). pose proof (len_nonneg trailing). lia.
    + rewrite app_assoc, last_last, <- app_assoc, Hcount, !len_app.
      change (GoInt.len [count]) with 1.
      replace (GoInt.len front + (GoInt.len trailing + 1)
               - (GoInt.len trailing + 1)) with (GoInt.len front) by lia.
      unfold GoInt.len. rewrite Nat2Z.id, firstn_exact; reflexivity.
Qed.

Lemma PCKSUnPadding_range_check_witness :
  PCKSUnPadding [x01; x07; x02] = (Some [x01], None).
Proof.
  exact (proj2 PCKSUnPadding_range_check [x01] [x07] x02 eq_refl).
Defined.

(** C3, as stated, fails for a block size above the runtime's
    allocation limit: for [B = 2^62] and the empty input [bytes.Repeat]
    is asked for [2^62] bytes and panics, so nothing of the stated
    length is returned. *)
Lemma PCKSPadding_length_counterexample :
  1 <= 2 ^ 62
  /\ PCKSPadding_alloc [] (2 ^ 62) = Panic makeslicePanic
  /\ ~ (exists padded,
          PCKSPadding_alloc [] (2 ^ 62) = Val padded
          /\ GoInt.len padded
             = GoInt.len (@nil byte)
               + (2 ^ 62 - GoInt.len (@nil byte) mod 2 ^ 62)).
Proof.
  assert (H : PCKSPadding_alloc [] (2 ^ 62) = Panic makeslicePanic)
    by (vm_compute; reflexivity).
  split; [lia|]. split; [exact H|].
  intros [padded [Hp _]]. rewrite H in Hp. discriminate.
Qed.

(** C3, amended. For a block size [B >= 1] and data [D] whose padded
    length [len D + (B - len D mod B)] is within the runtime's
    allocation limit, [PCKSPadding] returns one determined value of that
    length; the length is a positive multiple of [B] and strictly
    greater than [len D].  Above the limit it panics. *)
Theorem PCKSPadding_length (D : list byte) (B : Z) :
  1 <= B <= GoInt.max_int ->
  let L' := GoInt.len D + (B - GoInt.len D mod B) in
  (L' <= maxAlloc ->
   exists padded,
     PCKSPadding_alloc D B = Val padded
     /\ (forall r, PCKSPadding_alloc D B = Val r -> r = padded)
     /\ GoInt.len padded = L'
     /\ (exists k, 1 <= k /\ GoInt.len padded = k * B)
     /\ GoInt.len D < GoInt.len padded)
  /\ (maxAlloc < L' -> exists p, PCKSPadding_alloc D B = Panic p).
Proof.
  intros HB L'. split; [|apply (PCKSPadding_alloc_above D B HB)].
  intros Hfit. rewrite (PCKSPadding_alloc_within D B HB Hfit).
  pose proof (PCKSPadding_eq B HB D) as Heq. simpl in Heq.
  eexists. split; [exact Heq|].
  pose proof (PCKSPadding_len B HB D _ Heq) as Hlen.
  pose proof (pad_size_range B HB (GoInt.len D)) as Hp.
  pose proof (len_nonneg D) as HD.
  split; [intros r Hr; rewrite Heq in Hr; now injection Hr|].
  split; [exact Hlen|]. split.
  - exists (GoInt.len D / B + 1). split.
    + pose proof (Z.div_pos (GoInt.len D) B). lia.
    + rewrite Hlen. apply padded_len_multiple; lia.
  - lia.
Qed.

Lemma PCKSPadding_length_witness :
  exists padded,
    PCKSPadding_alloc [x68; x65; x6c; x6c; x6f] 16 = Val padded
    /\ (forall r, PCKSPadding_alloc [x68; x65; x6c; x6c; x6f] 16 = Val r
                  -> r = padded)
    /\ GoInt.len padded = 5 + (16 - 5 mod 16)
    /\ (exists k, 1 <= k /\ GoInt.len padded = k * 16)
    /\ 5 < GoInt.len padded.
Proof.
  assert (HB : 1 <= 16 <= GoInt.max_int) by (unfold GoInt.max_int; lia).
  apply (proj1 (PCKSPadding_length [x68; x65; x6c; x6c; x6f] 16 HB)).
  vm_compute. discriminate.
Defined.

(** C4. For a block size [1 <= B <= 255], [PCKSUnPadding] applied to
    the result of [PCKSPadding X B] succeeds and returns [X]. *)
Theorem PCKSUnPadding_PCKSPadding (X : list byte) (B : Z) :
  1 <= B <= 255 ->
  exists D, PCKSPadding X B = Val D /\ PCKSUnPadding D = (Some X, None).
Proof.
  intros HB.
  assert (HB' : 1 <= B <= GoInt.max_int) by (unfold GoInt.max_int; lia).
  eexists. split.
  - apply (PCKSPadding_eq B HB' X).
  - apply (PCKSUnPadding_padded X B HB).
Qed.

Lemma PCKSUnPadding_PCKSPadding_witness :
  exists D, PCKSPadding [x68; x65; x6c; x6c; x6f] 16 = Val D
            /\ PCKSUnPadding D = (Some [x68; x65; x6c; x6c; x6f], None).
Proof.
  apply (PCKSUnPadding_PCKSPadding [x68; x65; x6c; x6c; x6f] 16). lia.
Defined.

(** C9. A non-empty input whose last byte is 0 is accepted:
    [PCKSUnPadding] returns the whole input. *)
Theorem PCKSUnPadding_zero_count (data : list byte) :
  data <> [] ->
  GoInt.of_byte (last data x00) = 0 ->
  PCKSUnPadding data = (Some data, None).
Proof.
  intros Hne Hz.
  destruct (PCKSUnPadding_cases data) as [[Hc ->]|[_ ->]].
  - rewrite Hz in Hc. pose proof (len_nonneg data).
    destruct Hc as [Hc|Hc]; [|lia].
    apply len_zero_nil in Hc. contradiction.
  - rewrite Hz, Z.sub_0_r. unfold GoInt.len.
    rewrite Nat2Z.id, firstn_all. reflexivity.
Qed.

Lemma PCKSUnPadding_zero_count_witness :
  PCKSUnPadding [x01; x07; x00] = (Some [x01; x07; x00], None).
Proof.
  apply (PCKSUnPadding_zero_count [x01; x07; x00]).
  - discriminate.
  - reflexivity.
Defined.

(** C7, as stated, fails for a block size above 255: for [B = 256] the
    empty input gets 256 bytes of value 0, since [byte(256)] is 0 and no
    byte holds the value 256. *)
Lemma appends_full_block_256_counterexample :
  GoInt.len (@nil byte) mod 256 = 0
  /\ PCKSPadding [] 256 = Val (repeat x00 256)
  /\ ~ appends_full_block [] 256.
Proof.
  split; [reflexivity|]. split; [vm_compute; reflexivity|].
  intros [padText [_ [Hlen Hall]]].
  destruct padText as [|b padText]; [discriminate Hlen|].
  inversion Hall as [|? ? Hb _]; subst.
  pose proof (of_byte_range b). lia.
Qed.

(** C7, amended. For [1 <= B <= 255] and data whose length is a
    multiple of [B] (the empty input included), with the padded length
    within the runtime's allocation limit, [PCKSPadding] appends a full
    extra block: exactly [B] bytes, each of value [B].  For a larger
    [B], still within the limit, it appends exactly [B] bytes, each the
    byte [byte(B)], whose value is [B mod 256]. *)
Theorem PCKSPadding_exact_multiple (data : list byte) (B : Z) :
  1 <= B <= GoInt.max_int ->
  GoInt.len data mod B = 0 ->
  GoInt.len data + B <= maxAlloc ->
  PCKSPadding_alloc data B
  = Val (data ++ repeat (GoInt.to_byte B) (Z.to_nat B))
  /\ PCKSPadding data B = PCKSPadding_alloc data B
  /\ GoInt.len (repeat (GoInt.to_byte B) (Z.to_nat B)) = B
  /\ GoInt.of_byte (GoInt.to_byte B) = B mod 256
  /\ (B <= 255 -> appends_full_block data B).
Proof.
  intros HB Hmul Hfit.
  pose proof (PCKSPadding_eq B HB data) as Heq. simpl in Heq.
  assert (Hp : pad_size B (GoInt.len data) = B)
    by (unfold pad_size; rewrite Hmul; lia).
  rewrite Hp in Heq.
  assert (Hsame : PCKSPadding_alloc data B = PCKSPadding data B).
  { apply PCKSPadding_alloc_within; [assumption | rewrite Hp; assumption]. }
  split; [rewrite Hsame; exact Heq|].
  split; [symmetry; exact Hsame|].
  split; [rewrite len_repeat; lia|].
  split; [apply of_to_byte|].
  intros H255. exists (repeat (GoInt.to_byte B) (Z.to_nat B)).
  split; [exact Heq|]. split; [rewrite len_repeat; lia|].
  apply Forall_forall. intros b Hb. apply repeat_spec in Hb. subst b.
  rewrite of_to_byte. apply Z.mod_small. lia.
Qed.

Lemma PCKSPadding_exact_multiple_witness :
  PCKSPadding_alloc [x01; x02; x03; x04] 4
  = Val ([x01; x02; x03; x04] ++ repeat (GoInt.to_byte 4) (Z.to_nat 4))
  /\ PCKSPadding [x01; x02; x03; x04] 4
     = PCKSPadding_alloc [x01; x02; x03; x04] 4
  /\ GoInt.len (repeat (GoInt.to_byte 4) (Z.to_nat 4)) = 4
  /\ GoInt.of_byte (GoInt.to_byte 4) = 4 mod 256
  /\ (4 <= 255 -> appends_full_block [x01; x02; x03; x04] 4).
Proof.
  apply (PCKSPadding_exact_multiple [x01; x02; x03; x04] 4).
  - unfold GoInt.max_int. lia.
  - reflexivity.
  - unfold maxAlloc. change (GoInt.len [x01; x02; x03; x04]) with 4. lia.
Defined.

(** C10, as stated, fails: a block size of at least 1 does not make
    [PCKSPadding] return.  For [B = 2^62] and a one-byte input
    [bytes.Repeat] is asked for [2^62 - 1] bytes and panics. *)
Lemma PCKSPadding_total_counterexample :
  1 <= 2 ^ 62
  /\ PCKSPadding_alloc [x01] (2 ^ 62) = Panic makeslicePanic
  /\ ~ (exists padded, PCKSPadding_alloc [x01] (2 ^ 62) = Val padded).
Proof.
  assert (H : PCKSPadding_alloc [x01] (2 ^ 62) = Panic makeslicePanic)
    by (vm_compute; reflexivity).
  split; [lia|]. split; [exact H|].
  intros [padded Hp]. rewrite H in Hp. discriminate.
Qed.

(** C10, amended. [PCKSPadding] returns a value exactly when the block
    size is at least 1 and the padded length
    [len data + (B - len data mod B)] is within the runtime's allocation
    limit, and then no panic is reachable.  For [B = 0] the remainder it
    starts with panics, whatever the data. *)
Theorem PCKSPadding_total_iff (B : Z) :
  GoInt.min_int <= B <= GoInt.max_int ->
  (forall data,
      (exists padded, PCKSPadding_alloc data B = Val padded)
      <-> 1 <= B
          /\ GoInt.len data + (B - GoInt.len data mod B) <= maxAlloc)
  /\ (B = 0 -> forall data, PCKSPadding_alloc data B = Panic DivideByZero)
  /\ (forall data,
         1 <= B ->
         GoInt.len data + (B - GoInt.len data mod B) <= maxAlloc ->
         forall p, PCKSPadding_alloc data B <> Panic p).
Proof.
  intros HB.
  assert (Hret : forall data,
             1 <= B ->
             GoInt.len data + (B - GoInt.len data mod B) <= maxAlloc ->
             exists padded, PCKSPadding_alloc data B = Val padded).
  { intros data H1 Hfit.
    rewrite (PCKSPadding_alloc_within data B (conj H1 (proj2 HB)) Hfit).
    eexists. apply (PCKSPadding_eq B (conj H1 (proj2 HB)) data). }
  split; [|split].
  - intros data. split.
    + intros [padded Hpad].
      destruct (Z.le_gt_cases 1 B) as [H1|Hlt].
      * split; [assumption|].
        destruct (Z.le_gt_cases
                    (GoInt.len data + (B - GoInt.len data mod B)) maxAlloc)
          as [|Hover]; [assumption|exfalso].
        destruct (PCKSPadding_alloc_above data B (conj H1 (proj2 HB)) Hover)
          as [p Hp].
        rewrite Hp in Hpad. discriminate.
      * exfalso.
        destruct (PCKSPadding_alloc_nonpositive data B) as [p Hp]; [lia|].
        rewrite Hp in Hpad. discriminate.
    + intros [H1 Hfit]. now apply Hret.
  - intros -> data. reflexivity.
  - intros data H1 Hfit p Hp. destruct (Hret data H1 Hfit) as [padded Hpad].
    rewrite Hp in Hpad. discriminate.
Qed.

Lemma PCKSPadding_total_iff_witness :
  (forall data,
      (exists padded, PCKSPadding_alloc data 16 = Val padded)
      <-> 1 <= 16
          /\ GoInt.len data + (16 - GoInt.len data mod 16) <= maxAlloc)
  /\ (16 = 0 -> forall data, PCKSPadding_alloc data 16 = Panic DivideByZero)
  /\ (forall data,
         1 <= 16 ->
         GoInt.len data + (16 - GoInt.len data mod 16) <= maxAlloc ->
         forall p, PCKSPadding_alloc data 16 <> Panic p).
Proof.
  apply (PCKSPadding_total_iff 16).
  unfold GoInt.min_int, GoInt.max_int. lia.
Defined.

(** ** Xor and cipher block chaining *)

Section XorFacts.

Lemma lxor_byte_range (x y : Z) :
  0 <= x < 256 -> 0 <= y < 256 -> 0 <= Z.lxor x y < 256.
Proof.
  intros Hx Hy.
  assert (Hnn : 0 <= Z.lxor x y) by (apply Z.lxor_nonneg; lia).
  split; [exact Hnn|].
  destruct (Z.eq_dec (Z.lxor x y) 0) as [->|Hnz]; [lia|].
  change 256 with (2 ^ 8). apply Z.log2_lt_pow2; [lia|].
  pose proof (Z.log2_lxor x y ltac:(lia) ltac:(lia)) as Hl.
  assert (Hb : forall z, 0 <= z < 256 -> Z.log2 z < 8).
  { intros z Hz. destruct (Z.eq_dec z 0) as [->|]; [reflexivity|].
    apply Z.log2_lt_pow2; [lia|]. change (2 ^ 8) with 256. lia. }
  pose proof (Hb x Hx). pose proof (Hb y Hy). lia.
Qed.

Lemma of_byte_xor (a b : byte) :
  GoInt.of_byte (cipher.xor_byte a b)
  = Z.lxor (GoInt.of_byte a) (GoInt.of_byte b).
Proof.
  unfold cipher.xor_byte. rewrite of_to_byte.
  pose proof (of_byte_range a). pose proof (of_byte_range b).
  apply Z.mod_small. apply lxor_byte_range; lia.
Qed.

Lemma xor_byte_cancel (a b : byte) :
  cipher.xor_byte (cipher.xor_byte a b) b = a.
Proof.
  apply of_byte_inj. rewrite !of_byte_xor.
  rewrite Z.lxor_assoc, Z.lxor_nilpotent, Z.lxor_0_r. reflexivity.
Qed.

Lemma XORBytes_length (x y : list byte) :
  length x = length y -> length (cipher.XORBytes x y) = length x.
Proof.
  revert y. induction x as [|a x IH]; intros [|b y] H; simpl in *;
    try reflexivity; try discriminate.
  f_equal. apply IH. congruence.
Qed.

Lemma XORBytes_cancel (x y : list byte) :
  length x = length y -> cipher.XORBytes (cipher.XORBytes x y) y = x.
Proof.
  revert y. induction x as [|a x IH]; intros [|b y] H; simpl in *;
    try reflexivity; try discriminate.
  rewrite xor_byte_cancel. f_equal. apply IH. congruence.
Qed.

End XorFacts.

Section CBCFacts.

Import cipher.

Variable b : Block.
Hypothesis b_wf : block_wf b.

Let bs : nat := Z.to_nat (BlockSize b).

Lemma bs_pos : (0 < bs)%nat.
Proof. subst bs. pose proof (wf_size b b_wf). lia. Qed.

Lemma len_is_bs {A} (l : list A) : length l = bs <-> GoInt.len l = BlockSize b.
Proof. subst bs. unfold GoInt.len. pose proof (wf_size b b_wf). lia. Qed.

Lemma cbc_loop_nil fuel iv :
  cbc_encrypt_loop b fuel iv [] = [] /\ cbc_decrypt_loop b fuel iv [] = [].
Proof. destruct fuel; split; reflexivity. Qed.

Lemma cbc_encrypt_loop_step fuel iv blk rest :
  length blk = bs ->
  cbc_encrypt_loop b (S fuel) iv (blk ++ rest)
  = Encrypt b (XORBytes blk iv)
      ++ cbc_encrypt_loop b fuel (Encrypt b (XORBytes blk iv)) rest.
Proof.
  intros Hblk. pose proof bs_pos as Hpos.
  cbn [cbc_encrypt_loop cbc_decrypt_loop]. fold bs.
  destruct (Z.gtb_spec (GoInt.len (blk ++ rest)) 0) as [_|G].
  - rewrite firstn_exact, skipn_exact by assumption. reflexivity.
  - unfold GoInt.len in G. rewrite length_app in G. lia.
Qed.

Lemma cbc_decrypt_loop_step fuel iv blk rest :
  length blk = bs ->
  cbc_decrypt_loop b (S fuel) iv (blk ++ rest)
  = XORBytes (Decrypt b blk) iv ++ cbc_decrypt_loop b fuel blk rest.
Proof.
  intros Hblk. pose proof bs_pos as Hpos.
  cbn [cbc_encrypt_loop cbc_decrypt_loop]. fold bs.
  destruct (Z.gtb_spec (GoInt.len (blk ++ rest)) 0) as [_|G].
  - rewrite firstn_exact, skipn_exact by assumption. reflexivity.
  - unfold GoInt.len in G. rewrite length_app in G. lia.
Qed.

(** A buffer of [n] whole blocks splits into its first block and the
    remaining [n - 1]. *)
Lemma split_first_block {A} (n : nat) (src : list A) :
  length src = (S n * bs)%nat ->
  exists blk rest, src = blk ++ rest /\ length blk = bs
                   /\ length rest = (n * bs)%nat.
Proof.
  intros Hlen. exists (firstn bs src), (skipn bs src).
  rewrite firstn_skipn, length_firstn, length_skipn.
  simpl in Hlen. repeat split; lia.
Qed.

Lemma cbc_encrypt_loop_length n : forall fuel iv src,
  length iv = bs -> length src = (n * bs)%nat -> (length src <= fuel)%nat ->
  length (cbc_encrypt_loop b fuel iv src) = length src.
Proof.
  induction n as [|n IH]; intros fuel iv src Hiv Hsrc Hfuel.
  - destruct src; [|discriminate]. now rewrite (proj1 (cbc_loop_nil fuel iv)).
  - destruct (split_first_block n src Hsrc) as (blk & rest & -> & Hblk & Hrest).
    pose proof bs_pos. rewrite length_app in Hfuel.
    destruct fuel as [|fuel]; [lia|].
    rewrite cbc_encrypt_loop_step by assumption.
    assert (Hc : length (Encrypt b (XORBytes blk iv)) = bs).
    { apply len_is_bs. apply (wf_encrypt_len b b_wf). apply len_is_bs.
      rewrite XORBytes_length; congruence. }
    rewrite !length_app, IH; [congruence | assumption | assumption | lia].
Qed.

(** Decrypting what the encrypting loop produced, from the same [iv],
    gives the source back. *)
Lemma cbc_decrypt_encrypt_loop n : forall fuel fuel' iv src,
  length iv = bs -> length src = (n * bs)%nat ->
  (length src <= fuel)%nat -> (length src <= fuel')%nat ->
  cbc_decrypt_loop b fuel' iv (cbc_encrypt_loop b fuel iv src) = src.
Proof.
  induction n as [|n IH]; intros fuel fuel' iv src Hiv Hsrc Hfuel Hfuel'.
  - destruct src; [|discriminate].
    rewrite (proj1 (cbc_loop_nil fuel iv)).
    now rewrite (proj2 (cbc_loop_nil fuel' iv)).
  - destruct (split_first_block n src Hsrc) as (blk & rest & -> & Hblk & Hrest).
    pose proof bs_pos. rewrite length_app in Hfuel, Hfuel'.
    destruct fuel as [|fuel]; [lia|]. destruct fuel' as [|fuel']; [lia|].
    rewrite cbc_encrypt_loop_step by assumption.
    assert (Hx : length (XORBytes blk iv) = bs)
      by (rewrite XORBytes_length; congruence).
    assert (Hc : length (Encrypt b (XORBytes blk iv)) = bs).
    { apply len_is_bs. apply (wf_encrypt_len b b_wf). now apply len_is_bs. }
    rewrite cbc_decrypt_loop_step by assumption.
    rewrite (wf_decrypt_encrypt b b_wf) by now apply len_is_bs.
    rewrite XORBytes_cancel by congruence.
    f_equal. apply IH; [assumption | assumption | lia | lia].
Qed.

End CBCFacts.

(** ** Runs of the wrapper *)

Section MonadFacts.

Context {A B : Type}.

Lemma bind_lift_Val (a : A) (f : A -> M B) : bind (lift (Val a)) f = f a.
Proof. unfold bind, lift. destruct (f a). reflexivity. Qed.

Lemma bind_lift_Panic (p : panic) (f : A -> M B) :
  bind (lift (Panic p)) f = ([], Panic p).
Proof. reflexivity. Qed.

Lemma bind_ret (a : A) (f : A -> M B) : bind (ret a) f = f a.
Proof. apply bind_lift_Val. Qed.

Lemma bind_emit (e : event) (f : unit -> M B) :
  bind (emit e) f = (e :: trace (f tt), result (f tt)).
Proof. unfold bind, emit, trace, result. destruct (f tt). reflexivity. Qed.

End MonadFacts.

Section OverwriteFacts.

Lemma overwrite_length (buf out : list byte) :
  length (overwrite buf out) = length buf.
Proof.
  unfold overwrite. rewrite length_firstn, length_app, length_skipn. lia.
Qed.

Lemma overwrite_all (buf out : list byte) :
  length out = length buf -> overwrite buf out = out.
Proof.
  intros H. unfold overwrite. rewrite skipn_all2 by lia.
  rewrite app_nil_r, <- H. apply firstn_all.
Qed.

End OverwriteFacts.

Section WrapperFacts.

Lemma CryptBlocks_in_place_run mode buf out :
  cipher.CryptBlocks mode buf = Val out ->
  CryptBlocks_in_place mode buf
  = ([CallCryptBlocks buf], Val (overwrite buf out)).
Proof.
  intros H. unfold CryptBlocks_in_place.
  rewrite bind_emit, H, bind_lift_Val. reflexivity.
Qed.

Lemma Encrypt_run sf plainText padded mode out :
  PCKSPadding plainText (BlockSize sf) = Val padded ->
  newEncrypt sf (block sf) (iv sf) = Val mode ->
  cipher.CryptBlocks mode padded = Val out ->
  Encrypt sf plainText
  = ([CallNewEncrypt (iv sf); CallCryptBlocks padded],
     Val (Some (overwrite padded out), None)).
Proof.
  intros Hpad Hmode Hout. unfold Encrypt. fold (BlockSize sf).
  rewrite Hpad, bind_lift_Val, bind_emit, Hmode, bind_lift_Val.
  rewrite (CryptBlocks_in_place_run _ _ _ Hout). reflexivity.
Qed.

Lemma int_rem_divide (x y : Z) :
  y <> 0 -> exists r, int_rem x y = Val r /\ (r = 0 <-> (y | x)).
Proof.
  intros Hy. unfold int_rem.
  destruct (Z.eqb_spec y 0) as [E|_]; [contradiction|].
  eexists. split; [reflexivity|]. now apply Z.rem_divide.
Qed.

Lemma Decrypt_run sf cipherText mode out :
  cipherText <> [] ->
  BlockSize sf <> 0 ->
  (BlockSize sf | GoInt.len cipherText) ->
  newDecrypt sf (block sf) (iv sf) = Val mode ->
  cipher.CryptBlocks mode cipherText = Val out ->
  Decrypt sf cipherText
  = ([CallNewDecrypt (iv sf); CallCryptBlocks cipherText],
     Val (PCKSUnPadding (overwrite cipherText out))).
Proof.
  intros Hne Hbs Hdiv Hmode Hout. unfold Decrypt. fold (BlockSize sf).
  destruct (Z.eqb_spec (GoInt.len cipherText) 0) as [E|_].
  { apply len_zero_nil in E. contradiction. }
  destruct (int_rem_divide (GoInt.len cipherText) _ Hbs) as (r & -> & Hr).
  rewrite bind_lift_Val. apply Hr in Hdiv. subst r. simpl negb. cbv iota.
  rewrite bind_emit, Hmode, bind_lift_Val.
  rewrite (CryptBlocks_in_place_run _ _ _ Hout). reflexivity.
Qed.

(** What a construction without options leaves in the wrapper. *)
Lemma NewBlockCrypt_default key iv0 newCipher sf :
  NewBlockCrypt key iv0 newCipher [] = Val (Some sf, None) ->
  newCipher key = Val (Some (block sf), None)
  /\ iv sf = iv0
  /\ GoInt.len (iv sf) = BlockSize sf
  /\ newEncrypt sf = cipher.NewCBCEncrypter
  /\ newDecrypt sf = cipher.NewCBCDecrypter.
Proof.
  unfold NewBlockCrypt.
  destruct (newCipher key) as [[[blk|] [err|]]|p]; try discriminate.
  destruct (Z.eqb_spec (GoInt.len iv0) (cipher.BlockSize blk)) as [E|E];
    simpl; [|discriminate].
  intros [= <-]. simpl. auto.
Qed.

Lemma whole_blocks {A} (l : list A) (k B : Z) :
  1 <= B -> 0 <= k -> GoInt.len l = k * B ->
  length l = (Z.to_nat k * Z.to_nat B)%nat.
Proof.
  intros HB Hk Hlen. apply Nat2Z.inj.
  rewrite Nat2Z.inj_mul, !Z2Nat.id by lia. exact Hlen.
Qed.

End WrapperFacts.

(** ** The default factories *)

Section DefaultCBC.

Lemma cbc_CryptBlocks_run loop (b : cipher.Block) iv0 src :
  cipher.BlockSize b <> 0 ->
  (cipher.BlockSize b | GoInt.len src) ->
  cipher.cbc_CryptBlocks loop b iv0 src = Val (loop b (length src) iv0 src).
Proof.
  intros Hbs Hdiv. unfold cipher.cbc_CryptBlocks.
  destruct (int_rem_divide (GoInt.len src) _ Hbs) as (r & -> & Hr).
  apply Hr in Hdiv. subst r. reflexivity.
Qed.

Lemma NewCBCEncrypter_run (b : cipher.Block) iv0 :
  GoInt.len iv0 = cipher.BlockSize b ->
  cipher.NewCBCEncrypter b iv0
  = Val {| cipher.ModeBlockSize := cipher.BlockSize b;
           cipher.CryptBlocks :=
             cipher.cbc_CryptBlocks cipher.cbc_encrypt_loop b iv0 |}.
Proof.
  intros H. unfold cipher.NewCBCEncrypter. now rewrite H, Z.eqb_refl.
Qed.

Lemma NewCBCDecrypter_run (b : cipher.Block) iv0 :
  GoInt.len iv0 = cipher.BlockSize b ->
  cipher.NewCBCDecrypter b iv0
  = Val {| cipher.ModeBlockSize := cipher.BlockSize b;
           cipher.CryptBlocks :=
             cipher.cbc_CryptBlocks cipher.cbc_decrypt_loop b iv0 |}.
Proof.
  intros H. unfold cipher.NewCBCDecrypter. now rewrite H, Z.eqb_refl.
Qed.

(** The default encrypting factory never panics on whole blocks. *)
Lemma default_encrypt_transform_defined sf :
  newEncrypt sf = cipher.NewCBCEncrypter ->
  GoInt.len (iv sf) = BlockSize sf ->
  BlockSize sf <> 0 ->
  encrypt_transform_defined sf.
Proof.
  intros Hnew Hiv Hbs. unfold encrypt_transform_defined.
  rewrite Hnew, (NewCBCEncrypter_run _ _ Hiv).
  eexists. split; [reflexivity|].
  intros buf Hdiv. simpl. eexists. now apply cbc_CryptBlocks_run.
Qed.

(** The small xor cipher is a well-formed primitive. *)
Lemma xorBlock4_wf : cipher.block_wf xorBlock4.
Proof.
  assert (Hkey : forall x : list byte,
             GoInt.len x = cipher.BlockSize xorBlock4 ->
             length x = length key4).
  { intros x Hx. change (cipher.BlockSize xorBlock4) with 4 in Hx.
    unfold GoInt.len in Hx. change (length key4) with 4%nat. lia. }
  split.
  - change (1 <= 4 <= GoInt.max_int). unfold GoInt.max_int. lia.
  - intros x Hx.
    change (cipher.Encrypt xorBlock4 x) with (cipher.XORBytes x key4).
    unfold GoInt.len. rewrite XORBytes_length by auto. exact Hx.
  - intros x Hx. apply XORBytes_cancel. auto.
Qed.

End DefaultCBC.

(** ** The wrapper: the specification's statements *)

(** C1. With the default CBC factories, a well-formed cipher primitive
    of block size [1 <= B <= 255] and any plaintext [P], the empty one
    included, [Encrypt] returns a ciphertext with a nil error, and
    [Decrypt] of that ciphertext returns [P] with a nil error. *)
Theorem Decrypt_Encrypt key iv0 newCipher sf (P : list byte) :
  NewBlockCrypt key iv0 newCipher [] = Val (Some sf, None) ->
  cipher.block_wf (block sf) ->
  1 <= BlockSize sf <= 255 ->
  exists cipherText,
    result (Encrypt sf P) = Val (Some cipherText, None)
    /\ result (Decrypt sf cipherText) = Val (Some P, None).
Proof.
  intros Hnew Hwf HB.
  destruct (NewBlockCrypt_default _ _ _ _ Hnew) as (_ & _ & Hiv & HnE & HnD).
  assert (HB' : 1 <= BlockSize sf <= GoInt.max_int)
    by (unfold GoInt.max_int; lia).
  assert (Hnz : BlockSize sf <> 0) by lia.
  pose proof (PCKSPadding_eq _ HB' P) as Hpad. cbv zeta in Hpad.
  set (p := pad_size (BlockSize sf) (GoInt.len P)) in *.
  set (padded := P ++ repeat (GoInt.to_byte p) (Z.to_nat p)) in *.
  pose proof (pad_size_range _ HB' (GoInt.len P)) as Hp. fold p in Hp.
  pose proof (len_nonneg P) as HP.
  assert (Hlen : GoInt.len padded
                 = (GoInt.len P / BlockSize sf + 1) * BlockSize sf).
  { rewrite (PCKSPadding_len _ HB' _ _ Hpad). now apply padded_len_multiple. }
  assert (Hk : 0 <= GoInt.len P / BlockSize sf + 1).
  { pose proof (Z.div_pos (GoInt.len P) (BlockSize sf)). lia. }
  assert (Hdiv : (BlockSize sf | GoInt.len padded)) by (eexists; exact Hlen).
  pose proof (whole_blocks _ _ _ (proj1 HB') Hk Hlen) as Hblocks.
  assert (Hivn : length (iv sf) = Z.to_nat (cipher.BlockSize (block sf))).
  { unfold BlockSize, GoInt.len in Hiv. lia. }
  set (ct := cipher.cbc_encrypt_loop (block sf) (length padded) (iv sf) padded).
  assert (Hct : length ct = length padded).
  { apply (cbc_encrypt_loop_length _ Hwf _ _ _ _ Hivn Hblocks). lia. }
  assert (HmE := NewCBCEncrypter_run (block sf) (iv sf) Hiv).
  assert (HmD := NewCBCDecrypter_run (block sf) (iv sf) Hiv).
  rewrite <- HnE in HmE. rewrite <- HnD in HmD.
  assert (Hdiv' : (BlockSize sf | GoInt.len ct)).
  { unfold GoInt.len in *. now rewrite Hct. }
  assert (Hne : ct <> []).
  { intros E. rewrite E in Hct. symmetry in Hct.
    apply length_zero_iff_nil in Hct. unfold padded in Hct.
    apply app_eq_nil in Hct. destruct Hct as [_ Hrep].
    apply (f_equal (@length byte)) in Hrep.
    rewrite repeat_length in Hrep. simpl in Hrep. lia. }
  exists ct. split.
  - rewrite (Encrypt_run sf P padded _ ct Hpad HmE
               (cbc_CryptBlocks_run _ _ _ _ Hnz Hdiv)).
    simpl. now rewrite overwrite_all.
  - assert (Hdec : cipher.cbc_CryptBlocks cipher.cbc_decrypt_loop
                     (block sf) (iv sf) ct = Val padded).
    { rewrite (cbc_CryptBlocks_run _ _ _ _ Hnz Hdiv'). f_equal. rewrite Hct.
      apply (cbc_decrypt_encrypt_loop _ Hwf _ _ _ _ _ Hivn Hblocks); lia. }
    rewrite (Decrypt_run sf ct _ padded Hne Hnz Hdiv' HmD Hdec).
    simpl. rewrite overwrite_all by congruence.
    f_equal. apply (PCKSUnPadding_padded P _ HB).
Qed.

Lemma Decrypt_Encrypt_witness :
  exists cipherText,
    result (Encrypt bb4 [x68; x65; x6c; x6c; x6f])
    = Val (Some cipherText, None)
    /\ result (Decrypt bb4 cipherText)
       = Val (Some [x68; x65; x6c; x6c; x6f], None).
Proof.
  apply (Decrypt_Encrypt key4 iv4 xorCipher bb4 [x68; x65; x6c; x6c; x6f]).
  - reflexivity.
  - exact xorBlock4_wf.
  - change (1 <= 4 <= 255). lia.
Defined.

(** C5. A ciphertext that is empty, or whose length is not a multiple
    of the cipher's block size, makes [Decrypt] return
    [ErrInputNotMultipleBlocks] with no data, and the run makes no call:
    neither the decrypting factory nor its transform is invoked. *)
Theorem Decrypt_rejects_bad_length sf (cipherText : list byte) :
  cipherText = []
  \/ (BlockSize sf <> 0 /\ ~ (BlockSize sf | GoInt.len cipherText)) ->
  result (Decrypt sf cipherText) = Val (None, Some ErrInputNotMultipleBlocks)
  /\ trace (Decrypt sf cipherText) = [].
Proof.
  intros Hbad. unfold Decrypt. fold (BlockSize sf).
  destruct (Z.eqb_spec (GoInt.len cipherText) 0) as [E|E];
    [split; reflexivity|].
  destruct Hbad as [->|[Hbs Hnd]]; [contradiction E; reflexivity|].
  destruct (int_rem_divide (GoInt.len cipherText) _ Hbs) as (r & -> & Hr).
  rewrite bind_lift_Val.
  destruct (Z.eqb_spec r 0) as [E0|_]; [|split; reflexivity].
  apply Hr in E0. contradiction.
Qed.

Lemma Decrypt_rejects_bad_length_witness :
  result (Decrypt bb4 [x01; x02; x03])
  = Val (None, Some ErrInputNotMultipleBlocks)
  /\ trace (Decrypt bb4 [x01; x02; x03]) = [].
Proof.
  apply (Decrypt_rejects_bad_length bb4 [x01; x02; x03]).
  right. split.
  - discriminate.
  - change (~ (4 | 3)). intros [k Hk]. lia.
Defined.

(** C6. Once construction has succeeded, for a cipher of positive
    block size and either the default factories or a configured
    encrypting transform that returns on whole blocks, [Encrypt] returns
    a nil error and a ciphertext of length [len plainText + padSize], a
    positive multiple of the block size.  The ciphertext is the padded
    buffer as the transform left it: the IV is no part of it. *)
Theorem Encrypt_succeeds key iv0 newCipher opts sf (plainText : list byte) :
  NewBlockCrypt key iv0 newCipher opts = Val (Some sf, None) ->
  1 <= BlockSize sf <= GoInt.max_int ->
  opts = [] \/ encrypt_transform_defined sf ->
  exists cipherText,
    result (Encrypt sf plainText) = Val (Some cipherText, None)
    /\ GoInt.len cipherText
       = GoInt.len plainText + pad_size (BlockSize sf) (GoInt.len plainText)
    /\ (exists k, 1 <= k /\ GoInt.len cipherText = k * BlockSize sf)
    /\ (exists padded mode out,
           PCKSPadding plainText (BlockSize sf) = Val padded
           /\ newEncrypt sf (block sf) (iv sf) = Val mode
           /\ cipher.CryptBlocks mode padded = Val out
           /\ cipherText = overwrite padded out).
Proof.
  intros Hnew HB Hopts.
  assert (Hdef : encrypt_transform_defined sf).
  { destruct Hopts as [->|Hdef]; [|exact Hdef].
    destruct (NewBlockCrypt_default _ _ _ _ Hnew) as (_ & _ & Hiv & HnE & _).
    apply default_encrypt_transform_defined; [assumption | assumption | lia]. }
  destruct Hdef as (mode & Hmode & Hall).
  pose proof (PCKSPadding_eq _ HB plainText) as Hpad. cbv zeta in Hpad.
  pose proof (PCKSPadding_len _ HB _ _ Hpad) as Hlen.
  pose proof (len_nonneg plainText) as HP.
  pose proof (padded_len_multiple _ HB _ HP) as Hmul.
  rewrite <- Hlen in Hmul.
  destruct (Hall _ (ex_intro _ _ Hmul)) as [out Hout].
  assert (Hov : forall buf : list byte,
             GoInt.len (overwrite buf out) = GoInt.len buf).
  { intros buf. unfold GoInt.len. now rewrite overwrite_length. }
  eexists. split; [|split; [|split]].
  - rewrite (Encrypt_run sf plainText _ mode out Hpad Hmode Hout). reflexivity.
  - rewrite Hov. exact Hlen.
  - exists (GoInt.len plainText / BlockSize sf + 1). split.
    + pose proof (Z.div_pos (GoInt.len plainText) (BlockSize sf)). lia.
    + rewrite Hov. exact Hmul.
  - do 3 eexists. repeat split; eassumption.
Qed.

Lemma Encrypt_succeeds_witness :
  exists cipherText,
    result (Encrypt bb4 [x68; x65; x6c; x6c; x6f])
    = Val (Some cipherText, None)
    /\ GoInt.len cipherText = 5 + pad_size 4 5
    /\ (exists k, 1 <= k /\ GoInt.len cipherText = k * 4)
    /\ (exists padded mode out,
           PCKSPadding [x68; x65; x6c; x6c; x6f] 4 = Val padded
           /\ newEncrypt bb4 (block bb4) (iv bb4) = Val mode
           /\ cipher.CryptBlocks mode padded = Val out
           /\ cipherText = overwrite padded out).
Proof.
  apply (Encrypt_succeeds key4 iv4 xorCipher [] bb4 [x68; x65; x6c; x6c; x6f]).
  - reflexivity.
  - change (1 <= 4 <= GoInt.max_int). unfold GoInt.max_int. lia.
  - left. reflexivity.
Defined.

(** C8. When the cipher constructor succeeds and the IV's length
    differs from the cipher's block size, [NewBlockCrypt] returns
    [ErrInvalidIvSize] and no wrapper; when the cipher constructor
    returns an error, [NewBlockCrypt] returns that same error and no
    wrapper.  Both hold whatever the options. *)
Theorem NewBlockCrypt_errors key iv0 (newCipher : cipher_constructor) opts :
  (forall blk,
      newCipher key = Val (Some blk, None) ->
      GoInt.len iv0 <> cipher.BlockSize blk ->
      NewBlockCrypt key iv0 newCipher opts = Val (None, Some ErrInvalidIvSize))
  /\ (forall blk err,
         newCipher key = Val (blk, Some err) ->
         NewBlockCrypt key iv0 newCipher opts = Val (None, Some err)).
Proof.
  split.
  - intros blk Hc Hlen. unfold NewBlockCrypt. rewrite Hc.
    destruct (Z.eqb_spec (GoInt.len iv0) (cipher.BlockSize blk)) as [E|_];
      [contradiction|reflexivity].
  - intros blk err Hc. unfold NewBlockCrypt. rewrite Hc.
    destruct blk; reflexivity.
Qed.

Lemma NewBlockCrypt_errors_witness :
  NewBlockCrypt key4 [xa0; xb1; xc2] xorCipher []
  = Val (None, Some ErrInvalidIvSize)
  /\ NewBlockCrypt key4 iv4 (failingCipher (ErrForeign "invalid key size")) []
     = Val (None, Some (ErrForeign "invalid key size")).
Proof.
  split.
  - apply (proj1 (NewBlockCrypt_errors key4 [xa0; xb1; xc2] xorCipher [])
             xorBlock4).
    + reflexivity.
    + change (3 <> 4). lia.
  - apply (proj2 (NewBlockCrypt_errors key4 iv4
                    (failingCipher (ErrForeign "invalid key size")) [])
             None).
    reflexivity.
Defined.

(** * Further properties of the package *)

(** ** Padding beyond the block sizes of real ciphers *)

Section PaddingMore.

Lemma firstn_repeat_le {A} (a : A) (n m : nat) :
  (n <= m)%nat -> firstn n (repeat a m) = repeat a n.
Proof.
  intros H. replace m with (n + (m - n))%nat by lia.
  rewrite repeat_app. apply firstn_exact, repeat_length.
Qed.

(** Unpadding the closed form of a padded buffer, for any positive
    block size: the count byte holds [p mod 256]. *)
Lemma PCKSUnPadding_padded_any (X : list byte) (B : Z) :
  1 <= B <= GoInt.max_int ->
  let p := pad_size B (GoInt.len X) in
  PCKSUnPadding (X ++ repeat (GoInt.to_byte p) (Z.to_nat p))
  = (Some (X ++ repeat (GoInt.to_byte p) (Z.to_nat (p - p mod 256))), None).
Proof.
  intros HB p.
  assert (Hp : 1 <= p <= B) by now apply pad_size_range.
  pose proof (len_nonneg X) as HX.
  pose proof (Z.mod_pos_bound p 256 ltac:(lia)) as Hq.
  pose proof (Z.mod_le p 256 ltac:(lia) ltac:(lia)) as Hqp.
  assert (Hlast : GoInt.of_byte
                    (last (X ++ repeat (GoInt.to_byte p) (Z.to_nat p)) x00)
                  = p mod 256).
  { rewrite last_app_repeat by lia. apply of_to_byte. }
  destruct (PCKSUnPadding_cases (X ++ repeat (GoInt.to_byte p) (Z.to_nat p)))
    as [[Hc ->]|[_ ->]].
  - rewrite Hlast, len_app, len_repeat in Hc. lia.
  - rewrite Hlast, len_app, len_repeat. do 2 f_equal.
    replace (Z.to_nat (GoInt.len X + Z.of_nat (Z.to_nat p) - p mod 256))
      with (length X + Z.to_nat (p - p mod 256))%nat
      by (unfold GoInt.len; lia).
    rewrite firstn_app, firstn_all2 by lia. f_equal.
    replace (length X + Z.to_nat (p - p mod 256) - length X)%nat
      with (Z.to_nat (p - p mod 256)) by lia.
    apply firstn_repeat_le. lia.
Qed.

End PaddingMore.

(** X1. For every block size [B >= 1] with the padded length within
    the runtime's allocation limit, unpadding a padded buffer succeeds
    and removes [padSize mod 256] bytes, the value its count byte holds:
    the result is [X] followed by the [padSize - padSize mod 256]
    padding bytes left over.  It is [X] exactly when [padSize < 256]. *)
Theorem PCKSUnPadding_PCKSPadding_any (X : list byte) (B : Z) :
  1 <= B <= GoInt.max_int ->
  let p := pad_size B (GoInt.len X) in
  GoInt.len X + p <= maxAlloc ->
  exists D,
    PCKSPadding_alloc X B = Val D
    /\ PCKSUnPadding D
       = (Some (X ++ repeat (GoInt.to_byte p) (Z.to_nat (p - p mod 256))),
          None)
    /\ (PCKSUnPadding D = (Some X, None) <-> p < 256).
Proof.
  intros HB p Hfit. rewrite (PCKSPadding_alloc_within X B HB Hfit).
  eexists. split; [apply (PCKSPadding_eq B HB X)|].
  fold p. pose proof (PCKSUnPadding_padded_any X B HB) as Hun.
  cbv zeta in Hun. fold p in Hun. split; [exact Hun|].
  rewrite Hun.
  assert (Hp : 1 <= p <= B) by now apply pad_size_range.
  pose proof (Z.mod_pos_bound p 256 ltac:(lia)) as Hq.
  split.
  - intros [= Heq]. rewrite <- (app_nil_r X) in Heq at 2.
    apply app_inv_head in Heq. apply (f_equal (@length byte)) in Heq.
    rewrite repeat_length in Heq. simpl in Heq.
    destruct (Z.lt_ge_cases p 256) as [|Hge]; [assumption|exfalso].
    pose proof (Z.mod_le p 256 ltac:(lia) ltac:(lia)). lia.
  - intros Hlt. rewrite Z.mod_small, Z.sub_diag by lia. simpl.
    now rewrite app_nil_r.
Qed.

Lemma PCKSUnPadding_PCKSPadding_any_witness :
  exists D,
    PCKSPadding_alloc [x01; x02] 512 = Val D
    /\ PCKSUnPadding D
       = (Some ([x01; x02] ++ repeat (GoInt.to_byte 510)
                                     (Z.to_nat (510 - 510 mod 256))), None)
    /\ (PCKSUnPadding D = (Some [x01; x02], None) <-> 510 < 256).
Proof.
  apply (PCKSUnPadding_PCKSPadding_any [x01; x02] 512).
  - unfold GoInt.max_int. lia.
  - change (2 + 510 <= maxAlloc). unfold maxAlloc. lia.
Defined.

(** X2. For a block size [1 <= B <= 255], [PCKSPadding] is injective:
    two inputs with the same padded buffer are equal. *)
Theorem PCKSPadding_injective (X Y : list byte) (B : Z) :
  1 <= B <= 255 ->
  PCKSPadding X B = PCKSPadding Y B ->
  X = Y.
Proof.
  intros HB Heq.
  assert (HB' : 1 <= B <= GoInt.max_int) by (unfold GoInt.max_int; lia).
  rewrite (PCKSPadding_eq B HB' X), (PCKSPadding_eq B HB' Y) in Heq.
  injection Heq as Heq.
  pose proof (PCKSUnPadding_padded X B HB) as HX.
  pose proof (PCKSUnPadding_padded Y B HB) as HY.
  cbv zeta in HX, HY. rewrite Heq in HX. congruence.
Qed.

Lemma PCKSPadding_injective_witness : [x01; x02] = [x01; x02].
Proof.
  apply (PCKSPadding_injective [x01; x02] [x01; x02] 4).
  - lia.
  - reflexivity.
Defined.

(** X3. For a block size [1 <= B <= 255] the result of [PCKSPadding]
    is the input followed by between 1 and [B] padding bytes, each of
    them holding the number of padding bytes. *)
Theorem PCKSPadding_count_bytes (D : list byte) (B : Z) :
  1 <= B <= 255 ->
  exists padText,
    PCKSPadding D B = Val (D ++ padText)
    /\ 1 <= GoInt.len padText <= B
    /\ Forall (fun b => GoInt.of_byte b = GoInt.len padText) padText.
Proof.
  intros HB.
  assert (HB' : 1 <= B <= GoInt.max_int) by (unfold GoInt.max_int; lia).
  pose proof (pad_size_range B HB' (GoInt.len D)) as Hp.
  eexists. split; [apply (PCKSPadding_eq B HB' D)|].
  rewrite len_repeat, Z2Nat.id by lia. split; [exact Hp|].
  apply Forall_forall. intros b Hb. apply repeat_spec in Hb. subst b.
  rewrite of_to_byte. apply Z.mod_small. lia.
Qed.

Lemma PCKSPadding_count_bytes_witness :
  exists padText,
    PCKSPadding [x68; x65; x6c; x6c; x6f] 16
    = Val ([x68; x65; x6c; x6c; x6f] ++ padText)
    /\ 1 <= GoInt.len padText <= 16
    /\ Forall (fun b => GoInt.of_byte b = GoInt.len padText) padText.
Proof.
  apply (PCKSPadding_count_bytes [x68; x65; x6c; x6c; x6f] 16). lia.
Defined.

(** X4. A negative block size makes [PCKSPadding] panic in
    [bytes.Repeat], whatever the data: the padding count
    [blockSize - len % blockSize] is negative. *)
Theorem PCKSPadding_negative_blockSize (data : list byte) (B : Z) :
  - 2 ^ 62 <= B < 0 ->
  PCKSPadding data B = Panic NegativeRepeatCount.
Proof.
  intros HB. unfold PCKSPadding, int_rem.
  destruct (Z.eqb_spec B 0) as [E|_]; [lia|].
  pose proof (Z.rem_bound_pos (GoInt.len data) (- B) (len_nonneg data)
                ltac:(lia)) as Hr.
  rewrite Z.rem_opp_r in Hr by lia.
  set (r := Z.rem (GoInt.len data) B) in *.
  unfold GoInt.sub.
  rewrite wrap_in_range by (unfold GoInt.min_int, GoInt.max_int; lia).
  unfold bytes_Repeat.
  destruct (Z.eqb_spec (B - r) 0) as [E|_]; [lia|].
  destruct (Z.ltb_spec (B - r) 0) as [_|G]; [reflexivity|lia].
Qed.

Lemma PCKSPadding_negative_blockSize_witness :
  PCKSPadding [x01; x02; x03] (-16) = Panic NegativeRepeatCount.
Proof.
  apply (PCKSPadding_negative_blockSize [x01; x02; x03] (-16)). lia.
Defined.

(** ** Construction *)

Section ConstructionMore.

Lemma last_cons_default {A} (a d : A) (l : list A) :
  last (a :: l) d = last l a.
Proof.
  revert a d. induction l as [|b l IH]; intros a d; [reflexivity|].
  change (last (a :: b :: l) d) with (last (b :: l) d).
  now rewrite !IH.
Qed.

(** Applying a list of [WithBlockCodec] options in order keeps [block]
    and [iv] and leaves the factories of the last option. *)
Lemma fold_codec_options codecs : forall bb,
  fold_left (fun bb (opt : Option) => opt bb) (codec_options codecs) bb
  = {| block := block bb; iv := iv bb;
       newEncrypt := fst (last codecs (newEncrypt bb, newDecrypt bb));
       newDecrypt := snd (last codecs (newEncrypt bb, newDecrypt bb)) |}.
Proof.
  induction codecs as [|c codecs IH]; intros bb.
  - destruct bb. reflexivity.
  - cbn [codec_options map fold_left]. fold (codec_options codecs).
    rewrite IH. cbn [WithBlockCodec block iv newEncrypt newDecrypt].
    rewrite last_cons_default. destruct c. reflexivity.
Qed.

End ConstructionMore.

(** X5. When the cipher constructor succeeds and the IV is as long as
    the cipher's block, [NewBlockCrypt] with any list of
    [WithBlockCodec] options returns a wrapper and a nil error.  The
    wrapper holds the constructed cipher and the given IV, so its IV is
    as long as its block size; its factories are those of the last
    option, or the CBC ones when there is no option. *)
Theorem NewBlockCrypt_with_codecs key iv0 (newCipher : cipher_constructor)
    blk codecs :
  newCipher key = Val (Some blk, None) ->
  GoInt.len iv0 = cipher.BlockSize blk ->
  exists sf,
    NewBlockCrypt key iv0 newCipher (codec_options codecs)
    = Val (Some sf, None)
    /\ block sf = blk
    /\ iv sf = iv0
    /\ GoInt.len (iv sf) = BlockSize sf
    /\ (newEncrypt sf, newDecrypt sf)
       = last codecs (cipher.NewCBCEncrypter, cipher.NewCBCDecrypter).
Proof.
  intros Hc Hlen. unfold NewBlockCrypt. rewrite Hc, Hlen, Z.eqb_refl.
  cbn [negb]. rewrite fold_codec_options.
  cbn [block iv newEncrypt newDecrypt].
  eexists. split; [reflexivity|].
  unfold BlockSize. cbn [block iv newEncrypt newDecrypt].
  repeat split; try assumption.
  symmetry. apply surjective_pairing.
Qed.

Lemma NewBlockCrypt_with_codecs_witness :
  exists sf,
    NewBlockCrypt key4 iv4 xorCipher
      (codec_options [(cipher.NewCBCEncrypter, cipher.NewCBCDecrypter);
                      (plainCodec, plainCodec)])
    = Val (Some sf, None)
    /\ block sf = xorBlock4
    /\ iv sf = iv4
    /\ GoInt.len (iv sf) = BlockSize sf
    /\ (newEncrypt sf, newDecrypt sf)
       = last [(cipher.NewCBCEncrypter, cipher.NewCBCDecrypter);
               (plainCodec, plainCodec)]
              (cipher.NewCBCEncrypter, cipher.NewCBCDecrypter).
Proof.
  apply (NewBlockCrypt_with_codecs key4 iv4 xorCipher xorBlock4).
  - reflexivity.
  - reflexivity.
Defined.

(** X6. Whatever the cipher constructor and the options, a call of
    [NewBlockCrypt] that returns gives either a wrapper with a nil
    error, and then the constructor had returned a cipher whose block
    size is the IV's length, or no wrapper with an error, and then the
    error is [ErrInvalidIvSize] or the constructor's own. *)
Theorem NewBlockCrypt_returns key iv0 (newCipher : cipher_constructor) opts
    w e :
  NewBlockCrypt key iv0 newCipher opts = Val (w, e) ->
  (exists sf blk,
      w = Some sf /\ e = None
      /\ newCipher key = Val (Some blk, None)
      /\ GoInt.len iv0 = cipher.BlockSize blk)
  \/ (exists err,
         w = None /\ e = Some err
         /\ (err = ErrInvalidIvSize
             \/ exists blk, newCipher key = Val (blk, Some err))).
Proof.
  unfold NewBlockCrypt.
  destruct (newCipher key) as [[[blk|] [err|]]|p]; try discriminate.
  - intros [= <- <-]. right. exists err. eauto.
  - destruct (Z.eqb_spec (GoInt.len iv0) (cipher.BlockSize blk)) as [E|E];
      cbn [negb]; intros [= <- <-].
    + left. eauto 6.
    + right. exists ErrInvalidIvSize. auto.
  - intros [= <- <-]. right. exists err. eauto.
Qed.

Lemma NewBlockCrypt_returns_witness :
  (exists sf blk,
      Some bb4 = Some sf /\ @None error = None
      /\ xorCipher key4 = Val (Some blk, None)
      /\ GoInt.len iv4 = cipher.BlockSize blk)
  \/ (exists err,
         Some bb4 = None /\ None = Some err
         /\ (err = ErrInvalidIvSize
             \/ exists blk, xorCipher key4 = Val (blk, Some err))).
Proof.
  apply (NewBlockCrypt_returns key4 iv4 xorCipher [] (Some bb4) None).
  reflexivity.
Defined.

(** ** Encrypt and Decrypt with configured factories *)

Section RunFacts.

(** The padded buffer is made of whole blocks. *)
Lemma padded_whole_blocks (B : Z) (P : list byte) :
  1 <= B <= GoInt.max_int ->
  let p := pad_size B (GoInt.len P) in
  (B | GoInt.len (P ++ repeat (GoInt.to_byte p) (Z.to_nat p))).
Proof.
  intros HB p. pose proof (pad_size_range B HB (GoInt.len P)) as Hp.
  fold p in Hp. exists (GoInt.len P / B + 1).
  rewrite len_app, len_repeat, Z2Nat.id by lia.
  apply padded_len_multiple; [assumption | apply len_nonneg].
Qed.

(** A run of [Encrypt] when the decrypting transform undoes the
    encrypting one. *)
Lemma Encrypt_invertible_run sf (P : list byte) :
  1 <= BlockSize sf <= GoInt.max_int ->
  decrypt_inverts_encrypt sf ->
  let p := pad_size (BlockSize sf) (GoInt.len P) in
  let padded := P ++ repeat (GoInt.to_byte p) (Z.to_nat p) in
  exists dec out,
    Encrypt sf P
    = ([CallNewEncrypt (iv sf); CallCryptBlocks padded],
       Val (Some out, None))
    /\ newDecrypt sf (block sf) (iv sf) = Val dec
    /\ cipher.CryptBlocks dec out = Val padded
    /\ length out = length padded.
Proof.
  intros HB (enc & dec & Henc & Hdec & Hinv) p padded.
  destruct (Hinv padded (padded_whole_blocks _ P HB))
    as (out & Hout & Hlen & Hback).
  exists dec, out.
  rewrite (Encrypt_run sf P padded enc out (PCKSPadding_eq _ HB P) Henc Hout).
  rewrite overwrite_all by assumption. auto.
Qed.

End RunFacts.

(** X7. Round trip with configured factories.  For a block size
    [1 <= B <= 255] and factories whose decrypting transform undoes the
    encrypting one on whole blocks, [Encrypt] returns a ciphertext with
    a nil error and [Decrypt] of it returns the plaintext with a nil
    error. *)
Theorem Decrypt_Encrypt_codec sf (P : list byte) :
  1 <= BlockSize sf <= 255 ->
  decrypt_inverts_encrypt sf ->
  exists cipherText,
    result (Encrypt sf P) = Val (Some cipherText, None)
    /\ result (Decrypt sf cipherText) = Val (Some P, None).
Proof.
  intros HB Hinv.
  assert (HB' : 1 <= BlockSize sf <= GoInt.max_int)
    by (unfold GoInt.max_int; lia).
  destruct (Encrypt_invertible_run sf P HB' Hinv)
    as (dec & out & Henc & Hdec & Hback & Hlen).
  pose proof (padded_whole_blocks _ P HB') as Hdiv. cbv zeta in Hdiv.
  pose proof (pad_size_range _ HB' (GoInt.len P)) as Hp.
  set (p := pad_size (BlockSize sf) (GoInt.len P)) in *.
  set (padded := P ++ repeat (GoInt.to_byte p) (Z.to_nat p)) in *.
  assert (Hpl : (0 < length padded)%nat).
  { unfold padded. rewrite length_app, repeat_length. lia. }
  exists out. split; [rewrite Henc; reflexivity|].
  rewrite (Decrypt_run sf out dec padded).
  - unfold result. simpl. rewrite overwrite_all by congruence.
    f_equal. apply (PCKSUnPadding_padded P _ HB).
  - intros ->. simpl in Hlen. lia.
  - lia.
  - unfold GoInt.len in *. now rewrite Hlen.
  - exact Hdec.
  - exact Hback.
Qed.

Lemma plainCodec_inverts : decrypt_inverts_encrypt bb4plain.
Proof.
  exists {| cipher.ModeBlockSize := 4;
            cipher.CryptBlocks := fun src => Val src |}.
  eexists. split; [reflexivity|]. split; [reflexivity|].
  intros buf _. exists buf. auto.
Qed.

Lemma Decrypt_Encrypt_codec_witness :
  exists cipherText,
    result (Encrypt bb4plain [x68; x65; x6c; x6c; x6f])
    = Val (Some cipherText, None)
    /\ result (Decrypt bb4plain cipherText)
       = Val (Some [x68; x65; x6c; x6c; x6f], None).
Proof.
  apply (Decrypt_Encrypt_codec bb4plain [x68; x65; x6c; x6c; x6f]).
  - change (1 <= 4 <= 255). lia.
  - exact plainCodec_inverts.
Defined.

(** X8. Under the same conditions [Encrypt] is injective: two
    plaintexts with the same outcome of [Encrypt] are equal. *)
Theorem Encrypt_injective sf (P Q : list byte) :
  1 <= BlockSize sf <= 255 ->
  decrypt_inverts_encrypt sf ->
  result (Encrypt sf P) = result (Encrypt sf Q) ->
  P = Q.
Proof.
  intros HB Hinv Heq.
  assert (HB' : 1 <= BlockSize sf <= GoInt.max_int)
    by (unfold GoInt.max_int; lia).
  destruct (Encrypt_invertible_run sf P HB' Hinv)
    as (dec & out & HencP & Hdec & HbackP & _).
  destruct (Encrypt_invertible_run sf Q HB' Hinv)
    as (dec' & out' & HencQ & Hdec' & HbackQ & _).
  rewrite HencP, HencQ in Heq. unfold result in Heq. simpl in Heq.
  injection Heq as ->.
  rewrite Hdec in Hdec'. injection Hdec' as <-.
  rewrite HbackP in HbackQ. injection HbackQ as Hpad.
  pose proof (PCKSUnPadding_padded P _ HB) as HP.
  pose proof (PCKSUnPadding_padded Q _ HB) as HQ.
  cbv zeta in HP, HQ. rewrite Hpad in HP. congruence.
Qed.

Lemma Encrypt_injective_witness : [x68; x65] = [x68; x65].
Proof.
  apply (Encrypt_injective bb4plain [x68; x65] [x68; x65]).
  - change (1 <= 4 <= 255). lia.
  - exact plainCodec_inverts.
  - reflexivity.
Defined.

(** ** The default factories, continued *)

Section CBCMore.

Variable b : cipher.Block.
Hypothesis b_wf : cipher.block_wf b.

Let bs : nat := Z.to_nat (cipher.BlockSize b).

(** The ciphertext of a prefix of whole blocks is a prefix of the
    ciphertext: a block's ciphertext depends on the blocks before it
    only. *)
Lemma cbc_encrypt_loop_prefix n : forall fuel fuel' iv0 A R,
  length iv0 = bs -> length A = (n * bs)%nat ->
  (length (A ++ R) <= fuel)%nat -> (length A <= fuel')%nat ->
  firstn (length A) (cipher.cbc_encrypt_loop b fuel iv0 (A ++ R))
  = cipher.cbc_encrypt_loop b fuel' iv0 A.
Proof.
  induction n as [|n IH]; intros fuel fuel' iv0 A R Hiv HA Hfuel Hfuel'.
  - destruct A; [|discriminate].
    now rewrite (proj1 (cbc_loop_nil b fuel' iv0)).
  - destruct (split_first_block b n A HA) as (blk & A' & -> & Hblk & HA').
    fold bs in Hblk, HA'. pose proof (bs_pos b b_wf) as Hpos. fold bs in Hpos.
    rewrite <- app_assoc in *. rewrite !length_app in Hfuel, Hfuel'.
    destruct fuel as [|fuel]; [lia|]. destruct fuel' as [|fuel']; [lia|].
    rewrite !(cbc_encrypt_loop_step b b_wf) by assumption.
    set (c := cipher.Encrypt b (cipher.XORBytes blk iv0)).
    assert (Hc : length c = bs).
    { apply (len_is_bs b b_wf). apply (cipher.wf_encrypt_len b b_wf).
      apply (len_is_bs b b_wf). fold bs.
      rewrite XORBytes_length; congruence. }
    rewrite (length_app blk A'), Hblk, <- Hc.
    rewrite firstn_app, firstn_all2 by lia. f_equal.
    replace (length c + length A' - length c)%nat with (length A') by lia.
    rewrite length_app in Hfuel.
    apply IH; try assumption; rewrite ?length_app; lia.
Qed.

(** On whole blocks the CBC transforms are as
    [decrypt_inverts_encrypt] asks. *)
Lemma cbc_modes_invert iv0 buf :
  GoInt.len iv0 = cipher.BlockSize b ->
  (cipher.BlockSize b | GoInt.len buf) ->
  exists out,
    cipher.cbc_CryptBlocks cipher.cbc_encrypt_loop b iv0 buf = Val out
    /\ length out = length buf
    /\ cipher.cbc_CryptBlocks cipher.cbc_decrypt_loop b iv0 out = Val buf.
Proof.
  intros Hiv [k Hk]. pose proof (cipher.wf_size b b_wf) as HB.
  assert (Hnz : cipher.BlockSize b <> 0) by lia.
  assert (Hk0 : 0 <= k) by (pose proof (len_nonneg buf); nia).
  pose proof (whole_blocks buf k _ (proj1 HB) Hk0 Hk) as Hblocks.
  assert (Hivn : length iv0 = Z.to_nat (cipher.BlockSize b))
    by (unfold GoInt.len in Hiv; lia).
  assert (Hlen : length (cipher.cbc_encrypt_loop b (length buf) iv0 buf)
                 = length buf).
  { apply (cbc_encrypt_loop_length b b_wf _ _ _ _ Hivn Hblocks). lia. }
  eexists. split; [|split].
  - apply cbc_CryptBlocks_run; [exact Hnz | now exists k].
  - exact Hlen.
  - rewrite cbc_CryptBlocks_run;
      [|exact Hnz | exists k; unfold GoInt.len in *; now rewrite Hlen].
    f_equal. rewrite Hlen.
    apply (cbc_decrypt_encrypt_loop b b_wf _ _ _ _ _ Hivn Hblocks); lia.
Qed.

End CBCMore.

Lemma default_decrypt_inverts_encrypt sf :
  newEncrypt sf = cipher.NewCBCEncrypter ->
  newDecrypt sf = cipher.NewCBCDecrypter ->
  GoInt.len (iv sf) = BlockSize sf ->
  cipher.block_wf (block sf) ->
  decrypt_inverts_encrypt sf.
Proof.
  intros HnE HnD Hiv Hwf. unfold decrypt_inverts_encrypt.
  rewrite HnE, HnD.
  rewrite (NewCBCEncrypter_run _ _ Hiv), (NewCBCDecrypter_run _ _ Hiv).
  do 2 eexists. split; [reflexivity|]. split; [reflexivity|].
  intros buf Hdiv. simpl. now apply cbc_modes_invert.
Qed.

(** X9. With the default factories and the stored IV, two plaintexts
    that start with the same whole blocks get ciphertexts that start
    with the same bytes, as many as the common blocks hold. *)
Theorem Encrypt_common_prefix key iv0 newCipher sf (A X Y : list byte) :
  NewBlockCrypt key iv0 newCipher [] = Val (Some sf, None) ->
  cipher.block_wf (block sf) ->
  (BlockSize sf | GoInt.len A) ->
  exists c1 c2,
    result (Encrypt sf (A ++ X)) = Val (Some c1, None)
    /\ result (Encrypt sf (A ++ Y)) = Val (Some c2, None)
    /\ firstn (length A) c1 = firstn (length A) c2.
Proof.
  intros Hnew Hwf [k Hk].
  destruct (NewBlockCrypt_default _ _ _ _ Hnew) as (_ & _ & Hiv & HnE & HnD).
  pose proof (cipher.wf_size _ Hwf) as HB. fold (BlockSize sf) in HB.
  assert (Hk0 : 0 <= k) by (pose proof (len_nonneg A); nia).
  pose proof (whole_blocks A k _ (proj1 HB) Hk0 Hk) as Hblocks.
  assert (Hivn : length (iv sf) = Z.to_nat (cipher.BlockSize (block sf))).
  { unfold BlockSize, GoInt.len in Hiv. lia. }
  assert (Hrun : forall Z0 : list byte,
    exists c, result (Encrypt sf (A ++ Z0)) = Val (Some c, None)
              /\ firstn (length A) c
                 = cipher.cbc_encrypt_loop (block sf) (length A) (iv sf) A).
  { intros Z0.
    pose proof (PCKSPadding_eq _ HB (A ++ Z0)) as Hpad. cbv zeta in Hpad.
    pose proof (padded_whole_blocks _ (A ++ Z0) HB) as Hdiv. cbv zeta in Hdiv.
    set (p := pad_size (BlockSize sf) (GoInt.len (A ++ Z0))) in *.
    set (padded := (A ++ Z0) ++ repeat (GoInt.to_byte p) (Z.to_nat p)) in *.
    destruct (cbc_modes_invert _ Hwf (iv sf) padded Hiv Hdiv)
      as (out & Hout & Hlen & _).
    pose proof Hout as Hout'.
    rewrite cbc_CryptBlocks_run in Hout'
      by (assumption || (unfold BlockSize in HB; lia)).
    injection Hout' as Hout'.
    exists out. split.
    - assert (HmE := NewCBCEncrypter_run (block sf) (iv sf) Hiv).
      rewrite <- HnE in HmE.
      rewrite (Encrypt_run sf (A ++ Z0) padded _ out Hpad HmE Hout).
      unfold result. simpl. now rewrite overwrite_all.
    - rewrite <- Hout'. unfold padded. rewrite <- app_assoc.
      apply (cbc_encrypt_loop_prefix _ Hwf _ _ _ _ _ _ Hivn Hblocks);
        rewrite ?app_assoc; lia. }
  destruct (Hrun X) as (c1 & H1 & P1). destruct (Hrun Y) as (c2 & H2 & P2).
  exists c1, c2. repeat split; congruence.
Qed.

Lemma Encrypt_common_prefix_witness :
  exists c1 c2,
    result (Encrypt bb4 ([x01; x02; x03; x04] ++ [x68; x65]))
    = Val (Some c1, None)
    /\ result (Encrypt bb4 ([x01; x02; x03; x04] ++ [x6c; x6c; x6f]))
       = Val (Some c2, None)
    /\ firstn (length [x01; x02; x03; x04]) c1
       = firstn (length [x01; x02; x03; x04]) c2.
Proof.
  apply (Encrypt_common_prefix key4 iv4 xorCipher bb4 [x01; x02; x03; x04]).
  - reflexivity.
  - exact xorBlock4_wf.
  - exists 1. reflexivity.
Defined.

(** ** What Decrypt returns and what it does to its argument *)

Section DecryptFacts.

(** [Decrypt] is [Decrypt_in_place] without the buffer. *)
Lemma Decrypt_forgets_buffer sf (cipherText : list byte) :
  Decrypt sf cipherText
  = (trace (Decrypt_in_place sf cipherText),
     match result (Decrypt_in_place sf cipherText) with
     | Val (_, r) => Val r
     | Panic p => Panic p
     end).
Proof.
  unfold Decrypt, Decrypt_in_place.
  destruct (GoInt.len cipherText =? 0); [reflexivity|].
  destruct (int_rem _ _) as [r0|p]; [|reflexivity].
  rewrite !bind_lift_Val. destruct (negb (r0 =? 0)); [reflexivity|].
  rewrite !bind_emit.
  destruct (newDecrypt sf (block sf) (iv sf)) as [mode|p]; [|reflexivity].
  rewrite !bind_lift_Val. unfold CryptBlocks_in_place. rewrite !bind_emit.
  destruct (cipher.CryptBlocks mode cipherText) as [out|p]; reflexivity.
Qed.

(** The two ways [Decrypt_in_place] returns. *)
Lemma Decrypt_in_place_result sf (cipherText buf : list byte) r :
  result (Decrypt_in_place sf cipherText) = Val (buf, r) ->
  (buf = cipherText /\ r = (None, Some ErrInputNotMultipleBlocks)
   /\ (cipherText = [] \/ ~ (BlockSize sf | GoInt.len cipherText)))
  \/ (cipherText <> [] /\ (BlockSize sf | GoInt.len cipherText)
      /\ exists mode out,
          newDecrypt sf (block sf) (iv sf) = Val mode
          /\ cipher.CryptBlocks mode cipherText = Val out
          /\ buf = overwrite cipherText out
          /\ r = PCKSUnPadding buf).
Proof.
  unfold Decrypt_in_place. fold (BlockSize sf).
  destruct (Z.eqb_spec (GoInt.len cipherText) 0) as [E|E].
  { intros [= <- <-]. left. apply len_zero_nil in E. auto. }
  assert (Hne : cipherText <> []) by (intros ->; apply E; reflexivity).
  unfold int_rem.
  destruct (Z.eqb_spec (BlockSize sf) 0) as [E0|E0]; [discriminate|].
  rewrite bind_lift_Val.
  destruct (Z.eqb_spec (Z.rem (GoInt.len cipherText) (BlockSize sf)) 0)
    as [Er|Er]; cbn [negb].
  - apply Z.rem_divide in Er; [|assumption].
    rewrite bind_emit.
    destruct (newDecrypt sf (block sf) (iv sf)) as [mode|p] eqn:Hm;
      [|discriminate].
    rewrite bind_lift_Val. unfold CryptBlocks_in_place. rewrite bind_emit.
    destruct (cipher.CryptBlocks mode cipherText) as [out|p] eqn:Ho;
      [|discriminate].
    rewrite !bind_lift_Val. intros [= <- <-]. right.
    split; [assumption|]. split; [assumption|]. exists mode, out. auto.
  - intros [= <- <-]. left. split; [reflexivity|]. split; [reflexivity|].
    right. intros Hdiv. apply Er. now apply Z.rem_divide.
Qed.

Lemma Decrypt_result_in_place sf (cipherText : list byte) r :
  result (Decrypt sf cipherText) = Val r ->
  exists buf, result (Decrypt_in_place sf cipherText) = Val (buf, r).
Proof.
  rewrite Decrypt_forgets_buffer. unfold result at 1. simpl.
  destruct (result (Decrypt_in_place sf cipherText)) as [[buf r']|p];
    [|discriminate].
  intros [= ->]. eauto.
Qed.

End DecryptFacts.

(** X10. Whatever the configured factories, a call of [Decrypt] that
    returns gives [ErrInputNotMultipleBlocks] with no data, exactly for
    an empty ciphertext or a length that is no multiple of the block
    size, or else [ErrUnPaddingOutOfRange] with no data, or data with a
    nil error; the data is never longer than the ciphertext. *)
Theorem Decrypt_returns sf (cipherText : list byte) r :
  result (Decrypt sf cipherText) = Val r ->
  (r = (None, Some ErrInputNotMultipleBlocks)
   /\ (cipherText = [] \/ ~ (BlockSize sf | GoInt.len cipherText)))
  \/ (cipherText <> [] /\ (BlockSize sf | GoInt.len cipherText)
      /\ (r = (None, Some ErrUnPaddingOutOfRange)
          \/ exists plainText,
              r = (Some plainText, None)
              /\ GoInt.len plainText <= GoInt.len cipherText)).
Proof.
  intros Hr. destruct (Decrypt_result_in_place _ _ _ Hr) as [buf Hb].
  destruct (Decrypt_in_place_result _ _ _ _ Hb)
    as [(_ & -> & Hbad)|(Hne & Hdiv & mode & out & _ & _ & -> & ->)].
  - left. auto.
  - right. split; [assumption|]. split; [assumption|].
    destruct (PCKSUnPadding_cases (overwrite cipherText out))
      as [[_ ->]|[_ ->]]; [left; reflexivity|right].
    eexists. split; [reflexivity|].
    unfold GoInt.len. rewrite length_firstn, overwrite_length. lia.
Qed.

Lemma Decrypt_returns_witness :
  ((Some [x68; x65; x6c; x6c; x6f], @None error)
   = (None, Some ErrInputNotMultipleBlocks)
   /\ ([xdb; x83; x35; x60; xa7; xd7; xad; xbc] = []
       \/ ~ (BlockSize bb4
             | GoInt.len [xdb; x83; x35; x60; xa7; xd7; xad; xbc])))
  \/ ([xdb; x83; x35; x60; xa7; xd7; xad; xbc] <> []
      /\ (BlockSize bb4 | GoInt.len [xdb; x83; x35; x60; xa7; xd7; xad; xbc])
      /\ ((Some [x68; x65; x6c; x6c; x6f], @None error)
          = (None, Some ErrUnPaddingOutOfRange)
          \/ exists plainText,
              (Some [x68; x65; x6c; x6c; x6f], @None error)
              = (Some plainText, None)
              /\ GoInt.len plainText
                 <= GoInt.len [xdb; x83; x35; x60; xa7; xd7; xad; xbc])).
Proof.
  apply (Decrypt_returns bb4 [xdb; x83; x35; x60; xa7; xd7; xad; xbc]).
  vm_compute. reflexivity.
Defined.

(** X11. [Decrypt] works in the caller's buffer.  Without the buffer,
    [Decrypt_in_place] is [Decrypt].  When the call returns, the buffer
    has its length unchanged; on [ErrInputNotMultipleBlocks] it is
    untouched; otherwise it holds what the decrypting transform wrote,
    and returned data is the front of that buffer. *)
Theorem Decrypt_overwrites_buffer sf (cipherText : list byte) :
  Decrypt sf cipherText
  = (trace (Decrypt_in_place sf cipherText),
     match result (Decrypt_in_place sf cipherText) with
     | Val (_, r) => Val r
     | Panic p => Panic p
     end)
  /\ forall buf r,
      result (Decrypt_in_place sf cipherText) = Val (buf, r) ->
      length buf = length cipherText
      /\ (r = (None, Some ErrInputNotMultipleBlocks) -> buf = cipherText)
      /\ (r <> (None, Some ErrInputNotMultipleBlocks) ->
          exists mode out,
            newDecrypt sf (block sf) (iv sf) = Val mode
            /\ cipher.CryptBlocks mode cipherText = Val out
            /\ buf = overwrite cipherText out)
      /\ (forall plainText, r = (Some plainText, None) ->
          exists rest, buf = plainText ++ rest).
Proof.
  split; [apply Decrypt_forgets_buffer|].
  intros buf r Hb.
  destruct (Decrypt_in_place_result _ _ _ _ Hb)
    as [(-> & -> & _)|(_ & _ & mode & out & Hm & Ho & -> & ->)].
  - split; [reflexivity|]. split; [reflexivity|].
    split; [intros H; contradiction H; reflexivity | discriminate].
  - split; [apply overwrite_length|]. split; [|split].
    + destruct (PCKSUnPadding_cases (overwrite cipherText out))
        as [[_ ->]|[_ ->]]; discriminate.
    + intros _. eauto.
    + intros plainText Hpt.
      destruct (PCKSUnPadding_cases (overwrite cipherText out))
        as [[_ Hu]|[_ Hu]]; rewrite Hu in Hpt; [discriminate|].
      injection Hpt as <-. eexists. symmetry. apply firstn_skipn.
Qed.

Lemma Decrypt_overwrites_buffer_witness :
  length [x68; x65; x6c; x6c; x6f; x03; x03; x03]
  = length [xdb; x83; x35; x60; xa7; xd7; xad; xbc]
  /\ ((Some [x68; x65; x6c; x6c; x6f], @None error)
      = (None, Some ErrInputNotMultipleBlocks) ->
      [x68; x65; x6c; x6c; x6f; x03; x03; x03]
      = [xdb; x83; x35; x60; xa7; xd7; xad; xbc])
  /\ ((Some [x68; x65; x6c; x6c; x6f], @None error)
      <> (None, Some ErrInputNotMultipleBlocks) ->
      exists mode out,
        newDecrypt bb4 (block bb4) (iv bb4) = Val mode
        /\ cipher.CryptBlocks mode [xdb; x83; x35; x60; xa7; xd7; xad; xbc]
           = Val out
        /\ [x68; x65; x6c; x6c; x6f; x03; x03; x03]
           = overwrite [xdb; x83; x35; x60; xa7; xd7; xad; xbc] out)
  /\ (forall plainText,
         (Some [x68; x65; x6c; x6c; x6f], @None error) = (Some plainText, None)
         -> exists rest,
           [x68; x65; x6c; x6c; x6f; x03; x03; x03] = plainText ++ rest).
Proof.
  apply (proj2 (Decrypt_overwrites_buffer bb4
                  [xdb; x83; x35; x60; xa7; xd7; xad; xbc])).
  vm_compute. reflexivity.
Defined.

(** X12. After a round trip the ciphertext is gone: under the
    conditions of the round trip, [Decrypt] of what [Encrypt] returned
    leaves the padded plaintext in the ciphertext's buffer. *)
Theorem Decrypt_leaves_padded_plaintext sf (P : list byte) :
  1 <= BlockSize sf <= 255 ->
  decrypt_inverts_encrypt sf ->
  exists cipherText padded,
    result (Encrypt sf P) = Val (Some cipherText, None)
    /\ PCKSPadding P (BlockSize sf) = Val padded
    /\ result (Decrypt_in_place sf cipherText)
       = Val (padded, (Some P, None)).
Proof.
  intros HB Hinv.
  assert (HB' : 1 <= BlockSize sf <= GoInt.max_int)
    by (unfold GoInt.max_int; lia).
  destruct (Encrypt_invertible_run sf P HB' Hinv)
    as (dec & out & Henc & Hdec & Hback & Hlen).
  pose proof (padded_whole_blocks _ P HB') as Hdiv. cbv zeta in Hdiv.
  pose proof (pad_size_range _ HB' (GoInt.len P)) as Hp.
  pose proof (PCKSPadding_eq _ HB' P) as Hpad. cbv zeta in Hpad.
  pose proof (PCKSUnPadding_padded P _ HB) as Hun. cbv zeta in Hun.
  set (p := pad_size (BlockSize sf) (GoInt.len P)) in *.
  set (padded := P ++ repeat (GoInt.to_byte p) (Z.to_nat p)) in *.
  assert (Hpl : (0 < length padded)%nat).
  { unfold padded. rewrite length_app, repeat_length. lia. }
  exists out, padded. split; [rewrite Henc; reflexivity|].
  split; [exact Hpad|].
  unfold Decrypt_in_place. fold (BlockSize sf).
  destruct (Z.eqb_spec (GoInt.len out) 0) as [E|_].
  { unfold GoInt.len in E. lia. }
  destruct (int_rem_divide (GoInt.len out) (BlockSize sf) ltac:(lia))
    as (r0 & -> & Hr0).
  rewrite bind_lift_Val.
  assert (r0 = 0) as ->.
  { apply Hr0. unfold GoInt.len in *. now rewrite Hlen. }
  cbn [Z.eqb negb]. rewrite bind_emit, Hdec, bind_lift_Val.
  rewrite (CryptBlocks_in_place_run _ _ _ Hback).
  unfold result, trace, bind, ret. cbn [fst snd].
  rewrite overwrite_all by congruence. now rewrite Hun.
Qed.

Lemma bb4_inverts : decrypt_inverts_encrypt bb4.
Proof.
  apply default_decrypt_inverts_encrypt;
    [reflexivity | reflexivity | reflexivity | exact xorBlock4_wf].
Qed.

Lemma Decrypt_leaves_padded_plaintext_witness :
  exists cipherText padded,
    result (Encrypt bb4 [x68; x65; x6c; x6c; x6f])
    = Val (Some cipherText, None)
    /\ PCKSPadding [x68; x65; x6c; x6c; x6f] (BlockSize bb4) = Val padded
    /\ result (Decrypt_in_place bb4 cipherText)
       = Val (padded, (Some [x68; x65; x6c; x6c; x6f], None)).
Proof.
  apply (Decrypt_leaves_padded_plaintext bb4 [x68; x65; x6c; x6c; x6f]).
  - change (1 <= 4 <= 255). lia.
  - exact bb4_inverts.
Defined.

(** X15. A cipher that reports a block size of 0 passes construction
    with an empty IV, but the wrapper cannot be used: [Encrypt] panics
    on the remainder by zero for every plaintext, and so does [Decrypt]
    for every non-empty ciphertext, before any call is made. *)
Theorem zero_block_size_panics key (newCipher : cipher_constructor) blk opts :
  newCipher key = Val (Some blk, None) ->
  cipher.BlockSize blk = 0 ->
  (forall bb opt, In opt opts -> block (opt bb) = block bb) ->
  exists sf,
    NewBlockCrypt key [] newCipher opts = Val (Some sf, None)
    /\ (forall plainText, Encrypt sf plainText = ([], Panic DivideByZero))
    /\ (forall cipherText, cipherText <> [] ->
                           Decrypt sf cipherText = ([], Panic DivideByZero)).
Proof.
  intros Hc H0 Hopts. unfold NewBlockCrypt. rewrite Hc, H0.
  change (GoInt.len (@nil byte) =? 0) with true. cbn [negb].
  eexists. split; [reflexivity|].
  set (bb := {| block := blk; iv := [];
                newEncrypt := cipher.NewCBCEncrypter;
                newDecrypt := cipher.NewCBCDecrypter |}).
  assert (Hfold : forall bb0,
             block (fold_left (fun bb (opt : Option) => opt bb) opts bb0)
             = block bb0).
  { clear bb. induction opts as [|opt opts IH]; intros bb0; [reflexivity|].
    cbn [fold_left]. rewrite IH.
    - apply Hopts. now left.
    - intros bb' opt' Hin. apply Hopts. now right. }
  set (sf := fold_left _ opts bb).
  assert (Hblk : block sf = blk) by (subst sf; apply Hfold).
  split.
  - intros plainText. unfold Encrypt, PCKSPadding, int_rem.
    rewrite Hblk, H0. reflexivity.
  - intros cipherText Hne. unfold Decrypt, int_rem. rewrite Hblk, H0.
    destruct (Z.eqb_spec (GoInt.len cipherText) 0) as [E|_]; [|reflexivity].
    apply len_zero_nil in E. contradiction.
Qed.

Lemma zero_block_size_panics_witness :
  exists sf,
    NewBlockCrypt [] [] xorCipher [WithBlockCodec plainCodec plainCodec]
    = Val (Some sf, None)
    /\ (forall plainText, Encrypt sf plainText = ([], Panic DivideByZero))
    /\ (forall cipherText, cipherText <> [] ->
                           Decrypt sf cipherText = ([], Panic DivideByZero)).
Proof.
  apply (zero_block_size_panics [] xorCipher
           {| cipher.BlockSize := 0;
              cipher.Encrypt := fun x => cipher.XORBytes x [];
              cipher.Decrypt := fun x => cipher.XORBytes x [] |}).
  - reflexivity.
  - reflexivity.
  - intros bb opt [<-|[]]. reflexivity.
Defined.

(** X16. With the default factories and a block size other than 0,
    [Decrypt] returns on every ciphertext, whatever its length and
    bytes: it never panics. *)
Theorem Decrypt_default_returns key iv0 newCipher sf (cipherText : list byte) :
  NewBlockCrypt key iv0 newCipher [] = Val (Some sf, None) ->
  BlockSize sf <> 0 ->
  exists r, result (Decrypt sf cipherText) = Val r.
Proof.
  intros Hnew Hnz.
  destruct (NewBlockCrypt_default _ _ _ _ Hnew) as (_ & _ & Hiv & _ & HnD).
  unfold Decrypt. fold (BlockSize sf).
  destruct (Z.eqb_spec (GoInt.len cipherText) 0) as [E|E];
    [eexists; reflexivity|].
  destruct (int_rem_divide (GoInt.len cipherText) _ Hnz) as (r0 & -> & Hr0).
  rewrite bind_lift_Val.
  destruct (Z.eqb_spec r0 0) as [->|_]; cbn [negb]; [|eexists; reflexivity].
  rewrite bind_emit, HnD, (NewCBCDecrypter_run _ _ Hiv), bind_lift_Val.
  erewrite CryptBlocks_in_place_run.
  - unfold result, trace, bind, ret. cbn [fst snd]. eexists. reflexivity.
  - cbn [cipher.CryptBlocks]. apply cbc_CryptBlocks_run; [exact Hnz|].
    now apply Hr0.
Qed.

Lemma Decrypt_default_returns_witness :
  exists r, result (Decrypt bb4 [xff; xff; xff; xff; xff]) = Val r.
Proof.
  apply (Decrypt_default_returns key4 iv4 xorCipher bb4).
  - reflexivity.
  - change (4 <> 0). lia.
Defined.

(** X17. Padding looks at the last, partial block only: with the
    padded length within the runtime's allocation limit, whole blocks in
    front of the data pass through [PCKSPadding] unchanged. *)
Theorem PCKSPadding_after_whole_blocks (A X : list byte) (B : Z) :
  1 <= B <= GoInt.max_int ->
  (B | GoInt.len A) ->
  GoInt.len (A ++ X) + pad_size B (GoInt.len (A ++ X)) <= maxAlloc ->
  exists padded,
    PCKSPadding_alloc X B = Val padded
    /\ PCKSPadding_alloc (A ++ X) B = Val (A ++ padded).
Proof.
  intros HB [k Hk] Hfit.
  assert (Hp : pad_size B (GoInt.len (A ++ X)) = pad_size B (GoInt.len X)).
  { unfold pad_size. rewrite len_app, Hk, Z.add_comm, Z.mod_add by lia.
    reflexivity. }
  rewrite (PCKSPadding_alloc_within (A ++ X) B HB Hfit).
  rewrite PCKSPadding_alloc_within;
    [|assumption
     |rewrite Hp, len_app in Hfit; pose proof (len_nonneg A); lia].
  eexists. split; [apply (PCKSPadding_eq B HB X)|].
  rewrite (PCKSPadding_eq B HB (A ++ X)).
  rewrite Hp, app_assoc. reflexivity.
Qed.

Lemma PCKSPadding_after_whole_blocks_witness :
  exists padded,
    PCKSPadding_alloc [x68; x65] 4 = Val padded
    /\ PCKSPadding_alloc ([x01; x02; x03; x04] ++ [x68; x65]) 4
       = Val ([x01; x02; x03; x04] ++ padded).
Proof.
  apply (PCKSPadding_after_whole_blocks [x01; x02; x03; x04] [x68; x65] 4).
  - unfold GoInt.max_int. lia.
  - exists 1. reflexivity.
  - change (6 + 2 <= maxAlloc). unfold maxAlloc. lia.
Defined.
